(** * Invertible 1x1 convolution and the Glow pipeline (flows/glow.py)

    A shallow embedding of [InvertibleConv1x1] and [Glow] and the proofs
    of the properties stated about them.

    Numbers: the 32-bit floats of the program are idealised as the real
    numbers of the Standard Library, so [torch.exp], [torch.log] and
    [torch.abs] are [exp], [ln] and [Rabs].  Rounding is outside the
    model: every equation below is an equation of exact arithmetic.

    Matrices of a statically known size (the parameters of a layer, of
    size [n = in_out_channels]) are MathComp matrices over [R]; batches,
    whose shape is only known at run time, are tensors carrying their
    shape, and the operations on them fail ([None]) where PyTorch raises. *)

From HB Require Import structures.
From Stdlib Require Import Reals Lra ClassicalEpsilon FunctionalExtensionality.
From Stdlib Require Import Ascii String.
From mathcomp Require Import boot fingroup perm algebra.

Set Implicit Arguments.
Unset Strict Implicit.
Unset Printing Implicit Defensive.

Delimit Scope R_scope with coqR.
Import GRing.Theory.

(** ** The real numbers as a MathComp field *)

Definition Req_bool (x y : R) : bool :=
  if Req_dec_T x y is left _ then true else false.

Lemma Req_boolP : Equality.axiom Req_bool.
Proof.
move=> x y; rewrite /Req_bool.
by case: (Req_dec_T x y) => h; constructor.
Qed.

HB.instance Definition _ := hasDecEq.Build R Req_boolP.

Definition R_find (p : pred R) (_ : nat) : option R :=
  match excluded_middle_informative (exists x, p x) with
  | left ex => Some (proj1_sig (constructive_indefinite_description _ ex))
  | right _ => None
  end.

Lemma R_find_holds (p : pred R) n x : R_find p n = Some x -> p x.
Proof.
rewrite /R_find; case: (excluded_middle_informative _) => // ex [<-].
exact: (proj2_sig (constructive_indefinite_description _ ex)).
Qed.

Lemma R_find_complete (p : pred R) :
  (exists x, p x) -> exists n, R_find p n.
Proof.
move=> ex; exists 0%N; rewrite /R_find.
by case: (excluded_middle_informative _).
Qed.

Lemma R_find_ext (p q : pred R) : p =1 q -> R_find p =1 R_find q.
Proof.
move=> pq n; have -> : p = q by apply: functional_extensionality.
by [].
Qed.

HB.instance Definition _ :=
  hasChoice.Build R R_find_holds R_find_complete R_find_ext.

Lemma R_addA : associative Rplus.
Proof. by move=> x y z; rewrite Rplus_assoc. Qed.

Lemma R_add0 : left_id 0%coqR Rplus.
Proof. exact: Rplus_0_l. Qed.

Lemma R_addN : left_inverse 0%coqR Ropp Rplus.
Proof. exact: Rplus_opp_l. Qed.

HB.instance Definition _ :=
  GRing.isZmodule.Build R R_addA Rplus_comm R_add0 R_addN.

Lemma R_mulA : associative Rmult.
Proof. by move=> x y z; rewrite Rmult_assoc. Qed.

Lemma R_mulDl : left_distributive Rmult Rplus.
Proof. by move=> x y z; rewrite Rmult_plus_distr_r. Qed.

Lemma R_1neq0 : 1%coqR != 0%coqR.
Proof. by apply/eqP; exact: R1_neq_R0. Qed.

HB.instance Definition _ :=
  GRing.Zmodule_isComNzRing.Build R R_mulA Rmult_comm Rmult_1_l R_mulDl R_1neq0.

Lemma R_mulVx (x : R) : x != 0%coqR -> (Rinv x * x)%coqR = 1%coqR.
Proof. by move/eqP => nz; apply: Rinv_l. Qed.

Lemma R_inv0 : Rinv 0%coqR = 0%coqR.
Proof. exact: Rinv_0. Qed.

HB.instance Definition _ := GRing.ComNzRing_isField.Build R R_mulVx R_inv0.

Local Open Scope ring_scope.

(** [torch.sign]: -1, 0 or 1. *)
Definition Rsign (x : R) : R :=
  if Rlt_dec 0%coqR x then 1
  else if Rlt_dec x 0%coqR then -1 else 0.

(** ** Fixed-size matrix operations *)

Section MatrixOps.

Variable n : nat.

(** Elementwise product, [A * B] on tensors of equal shape. *)
Definition hadamard m k (A B : 'M[R]_(m, k)) : 'M[R]_(m, k) :=
  \matrix_(i, j) (A i j * B i j).

(** [np.tril(np.ones((n, n)), k=-1)]: ones strictly below the diagonal. *)
Definition tril_ones : 'M[R]_n := \matrix_(i, j) ((j < i)%N)%:R.

(** [torch.diag] of a matrix: its diagonal as a vector. *)
Definition diag_of (A : 'M[R]_n) : 'rV[R]_n := \row_i A i i.

(** The zero-based pivot sequence of an LU factorisation: at step [i]
    row [i] was exchanged with row [piv i].  (PyTorch stores the indices
    one-based as int32; [lu_unpack] and [lu_solve] both subtract one on
    reading, which is folded into the representation here.) *)
Definition pivot_seq := {ffun 'I_n -> 'I_n}.

(** [lu_unpack], permutation part.  [final_order] starts as [range(n)]
    and is updated by exchanging its entries [k] and [piv k] for
    [k = 0 .. n-1]; [P] is the identity with its columns selected by
    [final_order], that is [P[r, c] = (r == final_order[c])]. *)
Definition swap_entries (fo : {ffun 'I_n -> 'I_n}) (k j : 'I_n) :
    {ffun 'I_n -> 'I_n} :=
  [ffun c => if c == k then fo j else if c == j then fo k else fo c].

Definition final_order (piv : pivot_seq) : {ffun 'I_n -> 'I_n} :=
  foldl (fun fo k => swap_entries fo k (piv k)) [ffun c => c] (enum 'I_n).

Definition unpack_P (piv : pivot_seq) : 'M[R]_n :=
  \matrix_(r, c) (r == final_order piv c)%:R.

(** [lu_unpack], triangular parts: [L] is the strictly lower part of the
    packed factor with a unit diagonal, [U] is its upper part with the
    diagonal. *)
Definition unpack_L (LU : 'M[R]_n) : 'M[R]_n :=
  \matrix_(i, j) (if (j < i)%N then LU i j else (i == j)%:R).

Definition unpack_U (LU : 'M[R]_n) : 'M[R]_n :=
  \matrix_(i, j) (if (i <= j)%N then LU i j else 0).

Definition lu_unpack (LU : 'M[R]_n) (piv : pivot_seq) :=
  (unpack_P piv, unpack_L LU, unpack_U LU).

(** [lu_solve] on one system with [k] right-hand sides, as LAPACK's
    [getrs] does it: the row interchanges of the pivot sequence are
    applied to the right-hand side, then the unit lower triangular system
    is solved by forward substitution and the upper triangular one by
    back substitution.  Only the strictly lower part of [LU] is read as
    [L], and only the upper part with the diagonal as [U]. *)
Section Solve.

Variable k : nat.

Definition swap_rows (b : 'M[R]_(n, k)) (i j : 'I_n) : 'M[R]_(n, k) :=
  \matrix_(r, c) (if r == i then b j c else if r == j then b i c else b r c).

Definition apply_pivots (piv : pivot_seq) (b : 'M[R]_(n, k)) : 'M[R]_(n, k) :=
  foldl (fun b i => swap_rows b i (piv i)) b (enum 'I_n).

(** Row [i] of the forward substitution:
    [y[i] = b[i] - sum_{j < i} L[i, j] * y[j]]. *)
Definition fsub_row (LU : 'M[R]_n) (y : 'M[R]_(n, k)) (i : nat) :
    'M[R]_(n, k) :=
  \matrix_(r, c)
    (if (r : nat) == i
     then y r c - \sum_(j < n | (j < i)%N) LU r j * y j c
     else y r c).

(** Rows [0 .. m-1] in increasing order. *)
Fixpoint fsub_upto (LU : 'M[R]_n) (b : 'M[R]_(n, k)) (m : nat) :
    'M[R]_(n, k) :=
  if m is m'.+1 then fsub_row LU (fsub_upto LU b m') m' else b.

Definition fsub (LU : 'M[R]_n) (b : 'M[R]_(n, k)) := fsub_upto LU b n.

(** Row [i] of the back substitution:
    [x[i] = (y[i] - sum_{j > i} U[i, j] * x[j]) / U[i, i]]. *)
Definition bsub_row (LU : 'M[R]_n) (x : 'M[R]_(n, k)) (i : nat) :
    'M[R]_(n, k) :=
  \matrix_(r, c)
    (if (r : nat) == i
     then (x r c - \sum_(j < n | (i < j)%N) LU r j * x j c) / LU r r
     else x r c).

(** Rows [n-1, n-2, .., n-m] in decreasing order. *)
Fixpoint bsub_upto (LU : 'M[R]_n) (y : 'M[R]_(n, k)) (m : nat) :
    'M[R]_(n, k) :=
  if m is m'.+1 then bsub_row LU (bsub_upto LU y m') (n - m'.+1) else y.

Definition bsub (LU : 'M[R]_n) (y : 'M[R]_(n, k)) := bsub_upto LU y n.

Definition lu_solve_mx (LU : 'M[R]_n) (piv : pivot_seq) (b : 'M[R]_(n, k)) :
    'M[R]_(n, k) :=
  bsub LU (fsub LU (apply_pivots piv b)).

End Solve.

End MatrixOps.

(** ** Tensors with a run-time shape *)

Module Tensor.

(** A contiguous tensor: its shape and its elements in row-major order. *)
Record tensor := Tensor { shape : seq nat; data : seq R }.

Definition numel (sh : seq nat) : nat := foldr muln 1%N sh.

(** The tensor is well formed when it holds one element per index. *)
Definition wf (t : tensor) : Prop := size (data t) = numel (shape t).

(** [torch.zeros(sh)]. *)
Definition zeros (sh : seq nat) : tensor := Tensor sh (nseq (numel sh) 0).

(** [t.view(sh)] with every size given. *)
Definition view (t : tensor) (sh : seq nat) : option tensor :=
  if numel sh == numel (shape t) then Some (Tensor sh (data t)) else None.

(** [t.view(pre.., -1)]: the last size is inferred, which PyTorch refuses
    when the given sizes multiply to zero or do not divide the number of
    elements. *)
Definition view_infer (t : tensor) (pre : seq nat) : option tensor :=
  let p := numel pre in
  if (0 < p)%N && (p %| numel (shape t))%N
  then Some (Tensor (rcons pre (numel (shape t) %/ p)%N) (data t))
  else None.

(** [t.unsqueeze(-1)] and [t.squeeze(-1)]. *)
Definition unsqueeze_last (t : tensor) : tensor :=
  Tensor (rcons (shape t) 1%N) (data t).

Definition squeeze_last (t : tensor) : tensor :=
  if rev (shape t) is 1%N :: r then Tensor (rev r) (data t) else t.

(** [t += s] and [t -= s] for a scalar [s]: every element is updated. *)
Definition add_scalar (t : tensor) (s : R) : tensor :=
  Tensor (shape t) [seq v + s | v <- data t].

Definition sub_scalar (t : tensor) (s : R) : tensor :=
  Tensor (shape t) [seq v - s | v <- data t].

(** The [q]-th [n x k] matrix of a flat sequence holding a batch of them. *)
Definition block (n k : nat) (d : seq R) (q : nat) : 'M[R]_(n, k) :=
  \matrix_(i, j) nth 0 d ((q * n + i) * k + j).

Definition entry (n k : nat) (A : 'M[R]_(n, k)) (i j : nat) : R :=
  match insub i, insub j with
  | Some i', Some j' => A i' j'
  | _, _ => 0
  end.

(** The flat sequence of a batch of [Q] matrices of size [n x k]. *)
Definition unblock (n k Q : nat) (f : nat -> 'M[R]_(n, k)) : seq R :=
  mkseq (fun x => entry (f (x %/ (n * k))%N) ((x %/ k) %% n)%N (x %% k)%N)
        (Q * n * k).

(** [torch.matmul(W, t)] for a square matrix [W] and a three-dimensional
    [t]: [W] is broadcast over the first dimension and multiplies each
    [(n, rest)] slice on the left; the sizes must agree. *)
Definition matmul (n : nat) (W : 'M[R]_n) (t : tensor) : option tensor :=
  if shape t is [:: B; C; rest] then
    if C == n
    then Some (Tensor [:: B; n; rest]
                 (unblock B (fun q => W *m block n rest (data t) q)))
    else None
  else None.

(** Broadcasting of two shapes, aligned from the last dimension. *)
Fixpoint broadcast_rev (a b : seq nat) : option (seq nat) :=
  match a, b with
  | [::], _ => Some b
  | _, [::] => Some a
  | x :: a', y :: b' =>
      if (x == y) || (y == 1%N) then omap (cons x) (broadcast_rev a' b')
      else if x == 1%N then omap (cons y) (broadcast_rev a' b')
      else None
  end.

Definition broadcast (a b : seq nat) : option (seq nat) :=
  omap rev (broadcast_rev (rev a) (rev b)).

(** [torch.lu_solve(b, LU.unsqueeze(0), pivots.unsqueeze(0))]: [b] has
    shape [(.., m, k)], the factorisation has shape [(1, n, n)].  The call
    needs at least two dimensions in [b] and [m = n]; the batch
    dimensions [..] are broadcast against [(1,)], and every [n x k] matrix
    of [b] is solved against the one factorisation. *)
Definition lu_solve (n : nat) (b : tensor) (LU : 'M[R]_n) (piv : pivot_seq n) :
    option tensor :=
  if rev (shape b) is k :: m :: rbs then
    if m == n then
      if broadcast (rev rbs) [:: 1%N] is Some bs
      then Some (Tensor (bs ++ [:: n; k])
                   (unblock (numel bs)
                      (fun q => lu_solve_mx LU piv (block n k (data b) q))))
      else None
    else None
  else None.

End Tensor.

(** ** InvertibleConv1x1 *)

Module InvertibleConv1x1.

Import Tensor.

(** The parameters registered by [__init__], for [n = in_out_channels]. *)
Record module (n : nat) := Make {
  P : 'M[R]_n;
  L : 'M[R]_n;
  U : 'M[R]_n;
  I : 'M[R]_n;
  pivots : pivot_seq n;
  L_mask : 'M[R]_n;
  U_mask : 'M[R]_n;
  log_s : 'rV[R]_n;
  sign_s : 'rV[R]_n
}.

Section Methods.

Variable n : nat.
Implicit Type self : module n.

(** [__init__].  The arguments are what [torch.lu] returned for the
    random orthogonal matrix drawn by [nn.init.orthogonal_]: the packed
    factor and the pivot sequence. *)
Definition init (LU0 : 'M[R]_n) (pivots0 : pivot_seq n) : module n :=
  let '(P0, L0, U0) := lu_unpack LU0 pivots0 in
  let L_mask0 := tril_ones n in
  let U_mask0 := L_mask0^T in
  let s := diag_of U0 in
  {| P := P0; L := L0; U := U0; I := 1%:M; pivots := pivots0;
     L_mask := L_mask0; U_mask := U_mask0;
     log_s := map_mx (fun x => ln (Rabs x)) s;
     sign_s := map_mx Rsign s |}.

(** A training step: the optimiser rewrites the parameters that have
    [requires_grad=True], which are [L], [U] and [log_s]. *)
Definition update self (L' U' : 'M[R]_n) (log_s' : 'rV[R]_n) : module n :=
  {| P := P self; L := L'; U := U'; I := I self; pivots := pivots self;
     L_mask := L_mask self; U_mask := U_mask self;
     log_s := log_s'; sign_s := sign_s self |}.

(** [sign_s * torch.exp(log_s)] and [torch.sum(log_s, dim=0)]. *)
Definition s_diag self : 'rV[R]_n :=
  hadamard (sign_s self) (map_mx exp (log_s self)).

Definition sum_log_s self : R := \sum_(i < n) log_s self 0 i.

(** The three matrices rebuilt in [forward]. *)
Definition L_eff self : 'M[R]_n := hadamard (L self) (L_mask self) + I self.

Definition U_eff self : 'M[R]_n :=
  hadamard (U self) (U_mask self) + diag_mx (s_diag self).

Definition W self : 'M[R]_n := P self *m L_eff self *m U_eff self.

(** The packed matrix rebuilt in [backward]. *)
Definition LU self : 'M[R]_n :=
  hadamard (L self) (L_mask self) + hadamard (U self) (U_mask self)
  + diag_mx (s_diag self).

(** A method body runs on the parameters of the instance: it returns a
    value or raises ([None]), and leaves the parameters in some state.
    The tensors a method is given, the accumulator among them, are
    tensors of the caller (Glow allocates the accumulator at the start
    of each pass); an in-place update of one is returned as its new
    value. *)
Definition method (A : Type) : Type := module n -> option A * module n.

Definition ret A (a : A) : method A := fun self => (Some a, self).

Definition bind A B (m : method A) (f : A -> method B) : method B :=
  fun self =>
    let '(o, self') := m self in
    if o is Some a then f a self' else (None, self').

(** Reading attributes of [self]. *)
Definition attr A (f : module n -> A) : method A :=
  fun self => (Some (f self), self).

(** A library call that may raise. *)
Definition lift A (o : option A) : method A := fun self => (o, self).

Local Notation "x <- m ;; k" := (bind m (fun x => k))
  (at level 100, m at next level, right associativity).

Definition forward (z log_det_jacobians : tensor) : method (tensor * tensor) :=
  L_ <- attr (fun self => hadamard (L self) (L_mask self) + I self) ;;
  U_ <- attr (fun self =>
                hadamard (U self) (U_mask self) + diag_mx (s_diag self)) ;;
  W_ <- attr (fun self => P self *m L_ *m U_) ;;
  B_C <- lift (if shape z is B :: C :: _ then Some (B, C) else None) ;;
  z3 <- lift (view_infer z [:: B_C.1; B_C.2]) ;;
  r <- lift (matmul W_ z3) ;;
  z' <- lift (view r (shape z)) ;;
  s <- attr (fun self => sum_log_s self) ;;
  ret (z', add_scalar log_det_jacobians s).

Definition backward (y log_det_jacobians : tensor) : method (tensor * tensor) :=
  LU_ <- attr (fun self =>
                 hadamard (L self) (L_mask self)
                 + hadamard (U self) (U_mask self) + diag_mx (s_diag self)) ;;
  piv <- attr (fun self => pivots self) ;;
  r <- lift (lu_solve (unsqueeze_last y) LU_ piv) ;;
  s <- attr (fun self => sum_log_s self) ;;
  ret (squeeze_last r, sub_scalar log_det_jacobians s).

(** What a call returns, and the parameters it leaves. *)
Definition returns A (m : method A) self : option A := (m self).1.

Definition leaves A (m : method A) self : module n := (m self).2.

(** The life of an instance: calls of its two methods and training
    steps. *)
Inductive event :=
  | CallForward (z ld : tensor)
  | CallBackward (y ld : tensor)
  | Train (L' U' : 'M[R]_n) (log_s' : 'rV[R]_n).

Definition step self (e : event) : module n :=
  match e with
  | CallForward z ld => leaves (forward z ld) self
  | CallBackward y ld => leaves (backward y ld) self
  | Train L' U' log_s' => update self L' U' log_s'
  end.

Definition run self (es : seq event) : module n := foldl step self es.

(** The instances the program can hold: built by [__init__] from the
    factorisation of a nonsingular matrix (the diagonal of its upper
    factor has no zero, so the initial [log_s] is finite), then used and
    trained. *)
Definition built_from (LU0 : 'M[R]_n) (pivots0 : pivot_seq n) self : Prop :=
  (forall i, LU0 i i != 0) /\ exists es, self = run (init LU0 pivots0) es.

Definition reachable self : Prop :=
  exists LU0 pivots0, built_from LU0 pivots0 self.

End Methods.

End InvertibleConv1x1.

(** ** Glow *)

Module Glow.

(** The three kinds of sub-layer of a stage and the two directions in
    which a sub-layer can be called; a call is recorded as the kind, the
    stage index and the direction. *)
Inductive sublayer := Actnorm | Linear | Coupling.
Inductive direction := Fwd | Bwd.
Definition call : Type := sublayer * nat * direction.

Section Pipeline.

(** Batches and per-sample log-determinant accumulators.  The batch size
    is fixed by the types, and [0 : V] is [torch.zeros(z.size(0))]. *)
Variable X : Type.
Variable V : zmodType.

(** Modelled from the spec: the sub-layers [Actnorm] (flows/modules.py)
    and [AffineCoupling] (flows/coupling.py) are not among the sources;
    [Glow] reaches them, and [InvertibleConv1x1], only through the
    bijective-layer interface.  A layer maps the state and adds its
    contribution to the accumulator in [forward]; its [backward] maps
    the state back and subtracts a contribution.  The state map does not
    read the accumulator. *)
Record BijectiveLayer := Layer {
  forward_state : X -> X;
  forward_logdet : X -> V;
  backward_state : X -> X;
  backward_logdet : X -> V
}.

Definition layer_forward (l : BijectiveLayer) (z : X) (ld : V) : X * V :=
  (forward_state l z, ld + forward_logdet l z).

Definition layer_backward (l : BijectiveLayer) (y : X) (ld : V) : X * V :=
  (backward_state l y, ld - backward_logdet l y).

(** The contract of the interface: [inverse(forward(x, 0)) == (x, 0)]. *)
Definition contract (l : BijectiveLayer) : Prop :=
  forall x, let r := layer_forward l x 0 in layer_backward l r.1 r.2 = (x, 0).

(** The layer that changes nothing, used where a list has no such index. *)
Definition idle : BijectiveLayer :=
  {| forward_state := id; forward_logdet := fun=> 0;
     backward_state := id; backward_logdet := fun=> 0 |}.

Record module := Make {
  dims : seq nat;
  n_layers : nat;
  actnorms : seq BijectiveLayer;
  linears : seq BijectiveLayer;
  couplings : seq BijectiveLayer
}.

(** [__init__]: [n_layers] stages; the arguments give the layer that the
    [i]-th call of each constructor returns. *)
Definition init (dims0 : seq nat) (n_layers0 : nat)
    (new_Actnorm : nat -> seq nat -> BijectiveLayer)
    (new_InvertibleConv1x1 : nat -> nat -> BijectiveLayer)
    (new_AffineCoupling : nat -> seq nat -> bool -> BijectiveLayer) : module :=
  {| dims := dims0; n_layers := n_layers0;
     actnorms := [seq new_Actnorm i dims0 | i <- iota 0 n_layers0];
     linears :=
       [seq new_InvertibleConv1x1 i (nth 0%N dims0 0) | i <- iota 0 n_layers0];
     couplings :=
       [seq new_AffineCoupling i dims0 (i %% 2 != 0)%N | i <- iota 0 n_layers0] |}.

(** Every stage index has its three sub-layers. *)
Definition wf (self : module) : Prop :=
  [/\ size (actnorms self) = n_layers self,
      size (linears self) = n_layers self &
      size (couplings self) = n_layers self].

(** The state of a pass: the batch, the accumulator and the calls made
    so far, oldest first. *)
Definition pass : Type := X * V * seq call.

Definition call_forward (l : BijectiveLayer) (c : call) (st : pass) : pass :=
  let '(z, ld, tr) := st in
  let '(z', ld') := layer_forward l z ld in (z', ld', rcons tr c).

Definition call_backward (l : BijectiveLayer) (c : call) (st : pass) : pass :=
  let '(y, ld, tr) := st in
  let '(y', ld') := layer_backward l y ld in (y', ld', rcons tr c).

(** The body of the loop of [forward] for stage [i]. *)
Definition forward_stage (self : module) (st : pass) (i : nat) : pass :=
  let st := call_forward (nth idle (actnorms self) i) (Actnorm, i, Fwd) st in
  let st := call_forward (nth idle (linears self) i) (Linear, i, Fwd) st in
  call_forward (nth idle (couplings self) i) (Coupling, i, Fwd) st.

(** The body of the loop of [backward] for stage [i]. *)
Definition backward_stage (self : module) (st : pass) (i : nat) : pass :=
  let st := call_backward (nth idle (couplings self) i) (Coupling, i, Bwd) st in
  let st := call_backward (nth idle (linears self) i) (Linear, i, Bwd) st in
  call_backward (nth idle (actnorms self) i) (Actnorm, i, Bwd) st.

(** [for i in range(self.n_layers)] *)
Definition forward_pass (self : module) (y : X) : pass :=
  foldl (forward_stage self) (y, 0, [::]) (iota 0 (n_layers self)).

(** [for i in reversed(range(self.n_layers))] *)
Definition backward_pass (self : module) (z : X) : pass :=
  foldl (backward_stage self) (z, 0, [::]) (rev (iota 0 (n_layers self))).

Definition forward (self : module) (y : X) : X * V :=
  (forward_pass self y).1.

Definition backward (self : module) (z : X) : X * V :=
  (backward_pass self z).1.

(** The calls made by a pass. *)
Definition forward_calls (self : module) (y : X) : seq call :=
  (forward_pass self y).2.

Definition backward_calls (self : module) (z : X) : seq call :=
  (backward_pass self z).2.

(** The inverse call of a call: same sub-layer, other direction. *)
Definition inverse_call (c : call) : call :=
  let '(k, i, d) := c in (k, i, if d is Fwd then Bwd else Fwd).

End Pipeline.

End Glow.

(** ** InvertibleConv1x1 as a sub-layer of Glow *)

Section ConvLayer.

Variables n B : nat.

(** A batch of [B] samples of [n] channels, one sample per column, and
    the tensor of shape [(B, n)] that holds it. *)
Definition sample (x : 'M[R]_(n, B)) (q : nat) : 'cV[R]_n :=
  \col_i Tensor.entry x i q.

Definition batch_tensor (x : 'M[R]_(n, B)) : Tensor.tensor :=
  Tensor.Tensor [:: B; n] (Tensor.unblock B (sample x)).

(** An accumulator of [B] numbers and the tensor of shape [(B,)] that
    holds it. *)
Definition logdet_tensor (a : 'rV[R]_B) : Tensor.tensor :=
  Tensor.Tensor [:: B] (mkseq (fun q => Tensor.entry a 0 q) B).

(** What the two methods of an instance do on such batches, in the form
    of the interface through which Glow calls its sub-layers.  The
    methods return on a batch of this form only when it is not empty
    ([forward] raises in [view(B, C, -1)] when [B * C = 0]), so the layer
    exists for [0 < B] and [0 < n] only. *)
Definition conv_layer (B_pos : (0 < B)%N) (n_pos : (0 < n)%N)
    (self : InvertibleConv1x1.module n) :
    Glow.BijectiveLayer 'M[R]_(n, B) 'rV[R]_B :=
  {| Glow.forward_state := fun x => InvertibleConv1x1.W self *m x;
     Glow.forward_logdet :=
       fun _ => const_mx (InvertibleConv1x1.sum_log_s self);
     Glow.backward_state :=
       fun y => lu_solve_mx (InvertibleConv1x1.LU self)
                  (InvertibleConv1x1.pivots self) y;
     Glow.backward_logdet :=
       fun _ => const_mx (InvertibleConv1x1.sum_log_s self) |}.

(** The pipeline whose linear sub-layers are instances of
    InvertibleConv1x1, on non-empty batches of [B] samples of [n]
    channels; [convs i] is the instance built for stage [i]. *)
Definition glow_over_conv (B_pos : (0 < B)%N) (n_pos : (0 < n)%N)
    (dims0 : seq nat) (N : nat)
    (new_Actnorm : nat -> seq nat -> Glow.BijectiveLayer 'M[R]_(n, B) 'rV[R]_B)
    (convs : nat -> InvertibleConv1x1.module n)
    (new_AffineCoupling :
       nat -> seq nat -> bool -> Glow.BijectiveLayer 'M[R]_(n, B) 'rV[R]_B) :
    Glow.module 'M[R]_(n, B) 'rV[R]_B :=
  Glow.init dims0 N new_Actnorm
    (fun i _ => conv_layer B_pos n_pos (convs i)) new_AffineCoupling.

End ConvLayer.

(** ** Vocabulary of the statements *)

Section PivotPermutation.

Variable n : nat.
Implicit Type piv : pivot_seq n.

(** The permutation accumulated by the exchanges of a list of steps. *)
Definition swaps_perm piv (s : seq 'I_n) : 'S_n :=
  foldl (fun p k => (tperm k (piv k) * p)%g) 1%g s.

Definition pivot_perm piv : 'S_n := swaps_perm piv (enum 'I_n).

End PivotPermutation.

Section LayerVocabulary.

Import Tensor.

Variable n : nat.
Implicit Type self : InvertibleConv1x1.module n.

(** The parameters registered with [requires_grad=False]. *)
Definition frozen self :=
  (InvertibleConv1x1.P self, InvertibleConv1x1.I self,
   InvertibleConv1x1.pivots self, InvertibleConv1x1.L_mask self,
   InvertibleConv1x1.U_mask self, InvertibleConv1x1.sign_s self).

(** What [__init__] establishes and every later step keeps. *)
Definition well_built self : Prop :=
  [/\ InvertibleConv1x1.P self = unpack_P (InvertibleConv1x1.pivots self),
      InvertibleConv1x1.I self = 1%:M,
      InvertibleConv1x1.L_mask self = tril_ones n,
      InvertibleConv1x1.U_mask self = (tril_ones n)^T &
      forall i, Rabs (InvertibleConv1x1.sign_s self 0 i) = 1].

(** The inputs on which [forward] returns: at least two dimensions, a
    non-empty batch of [n] channels. *)
Definition forward_accepts (z : tensor) : bool :=
  if shape z is B :: C :: _ then (0 < B * C)%N && (C == n) else false.

(** The elements of the result of [forward]: every [(n, rest)] slice of
    the batch multiplied by [W]. *)
Definition forward_data self (z : tensor) : seq R :=
  if shape z is B :: C :: sp
  then unblock B
         (fun q => InvertibleConv1x1.W self *m block n (numel sp) (data z) q)
  else [::].

(** The inputs on which [backward] returns: the last dimension is [n]. *)
Definition backward_accepts (y : tensor) : bool :=
  if shape y is d :: ds then last d ds == n else false.

(** The batch dimensions that [lu_solve] sees: all dimensions but the
    last, or a single one of size 1 when there is none. *)
Definition solve_batch (y : tensor) : seq nat :=
  let bs := if shape y is d :: ds then belast d ds else [::] in
  if bs is [::] then [:: 1%N] else bs.

Definition backward_data self (y : tensor) : seq R :=
  unblock (numel (solve_batch y))
    (fun q => lu_solve_mx (InvertibleConv1x1.LU self)
                (InvertibleConv1x1.pivots self) (block n 1 (data y) q)).

End LayerVocabulary.

Section GlowVocabulary.

Import Glow.

Variable X : Type.
Variable V : zmodType.
Variable self : Glow.module X V.

Local Notation act i := (nth (idle X V) (actnorms self) i).
Local Notation lin i := (nth (idle X V) (linears self) i).
Local Notation cpl i := (nth (idle X V) (couplings self) i).

(** The state map and the contribution of a whole stage. *)
Definition stage_forward_state (i : nat) (z : X) : X :=
  forward_state (cpl i) (forward_state (lin i) (forward_state (act i) z)).

Definition stage_forward_logdet (i : nat) (z : X) : V :=
  forward_logdet (act i) z
  + forward_logdet (lin i) (forward_state (act i) z)
  + forward_logdet (cpl i) (forward_state (lin i) (forward_state (act i) z)).

Definition stage_backward_state (i : nat) (y : X) : X :=
  backward_state (act i) (backward_state (lin i) (backward_state (cpl i) y)).

Definition stage_backward_logdet (i : nat) (y : X) : V :=
  backward_logdet (cpl i) y
  + backward_logdet (lin i) (backward_state (cpl i) y)
  + backward_logdet (act i) (backward_state (lin i) (backward_state (cpl i) y)).

Definition forward_stage_calls (i : nat) : seq call :=
  [:: (Actnorm, i, Fwd); (Linear, i, Fwd); (Coupling, i, Fwd)].

Definition backward_stage_calls (i : nat) : seq call :=
  [:: (Coupling, i, Bwd); (Linear, i, Bwd); (Actnorm, i, Bwd)].

(** The sub-layer that a call names, and what making the call does to
    the batch and the accumulator: the method of that sub-layer, in the
    direction of the call. *)
Definition sublayer_of (k : sublayer) (i : nat) : BijectiveLayer X V :=
  match k with Actnorm => act i | Linear => lin i | Coupling => cpl i end.

Definition perform (st : X * V) (c : call) : X * V :=
  let '(k, i, d) := c in
  if d is Fwd then layer_forward (sublayer_of k i) st.1 st.2
  else layer_backward (sublayer_of k i) st.1 st.2.

(** The three sub-layers of stage [i] honour the contract. *)
Definition stage_ok (i : nat) : Prop :=
  [/\ contract (act i), contract (lin i) & contract (cpl i)].

(** Every sub-layer held by the pipeline honours the contract. *)
Definition all_contract (s : seq (BijectiveLayer X V)) : Prop :=
  forall i, (i < size s)%N -> contract (nth (idle X V) s i).

Definition honours_contract : Prop :=
  [/\ all_contract (actnorms self), all_contract (linears self) &
      all_contract (couplings self)].

End GlowVocabulary.

(** ** Concrete instances used to exercise the statements *)

(** A layer of two channels built from the factorisation of the
    identity, with no row exchanged. *)
Definition unit_conv : InvertibleConv1x1.module 2 :=
  InvertibleConv1x1.init 1%:M [ffun i => i].

(** A layer on booleans that flips its input and contributes an amount
    that depends on it. *)
Definition flip_layer : Glow.BijectiveLayer bool int :=
  {| Glow.forward_state := negb;
     Glow.forward_logdet := fun x => if x then 1 else 2;
     Glow.backward_state := negb;
     Glow.backward_logdet := fun y => if y then 2 else 1 |}.

Definition flip_glow : Glow.module bool int :=
  Glow.init [:: 2%N] 2 (fun _ _ => flip_layer) (fun _ _ => flip_layer)
    (fun _ _ _ => flip_layer).

Definition zero_batch : Tensor.tensor := Tensor.Tensor [:: 1%N; 2%N] [:: 0; 0].

Definition zero_image : Tensor.tensor :=
  Tensor.Tensor [:: 1%N; 2%N; 3%N] (nseq 6 0).

Definition square_image : Tensor.tensor :=
  Tensor.Tensor [:: 1%N; 2%N; 2%N] (nseq 4 0).

(** The layer [unit_conv] after a training step that sets every entry of
    [U] to one: its matrix [W] has ones on and above the diagonal. *)
Definition shear_conv : InvertibleConv1x1.module 2 :=
  InvertibleConv1x1.update unit_conv 0 (const_mx 1) 0.

(** A batch of shape [(1, 2, 2)] with a single nonzero element, in
    channel 1 at position 0. *)
Definition dot_image : Tensor.tensor :=
  Tensor.Tensor [:: 1%N; 2%N; 2%N] [:: 0; 0; 1; 0].

(** ** Further vocabulary *)

(** The sign that the frozen parameters give to the determinant of [W]:
    the signature of the row permutation times the product of [sign_s]. *)
Definition orientation n (self : InvertibleConv1x1.module n) : R :=
  (-1) ^+ (pivot_perm (InvertibleConv1x1.pivots self))^-1%g
  * \prod_(i < n) InvertibleConv1x1.sign_s self 0 i.

Section GlowInverseVocabulary.

Variable X : Type.
Variable V : zmodType.
Variable self : Glow.module X V.


(** The contract read in the other direction:
    [forward(inverse(y, 0)) == (y, 0)]. *)
Definition inverse_contract (l : Glow.BijectiveLayer X V) : Prop :=
  forall y,
    let r := Glow.layer_backward l y 0 in Glow.layer_forward l r.1 r.2 = (y, 0).

Definition all_inverse_contract (s : seq (Glow.BijectiveLayer X V)) : Prop :=
  forall i, (i < size s)%N -> inverse_contract (nth (Glow.idle X V) s i).

Definition stage_inverse_ok (i : nat) : Prop :=
  [/\ inverse_contract (nth (Glow.idle X V) (Glow.actnorms self) i),
      inverse_contract (nth (Glow.idle X V) (Glow.linears self) i) &
      inverse_contract (nth (Glow.idle X V) (Glow.couplings self) i)].

Definition honours_inverse_contract : Prop :=
  [/\ all_inverse_contract (Glow.actnorms self),
      all_inverse_contract (Glow.linears self) &
      all_inverse_contract (Glow.couplings self)].

End GlowInverseVocabulary.

(** ** main.py: the names of the output files *)

HB.instance Definition _ := Equality.copy ascii (can_type ascii_nat_embedding).

Module Main.

(** Python strings, as sequences of characters; the characters are those
    of [ascii], which holds every character that [main] itself adds to
    the output directory. *)
Definition str : Type := seq ascii.

Definition lit (s : string) : str := list_ascii_of_string s.

(** [str(n)] for a natural number: its decimal digits, most significant
    first. *)
Fixpoint digits_fuel (fuel n : nat) : seq nat :=
  if fuel is f.+1 then
    if (n < 10)%N then [:: n] else rcons (digits_fuel f (n %/ 10)%N) (n %% 10)%N
  else [::].

Definition digits (n : nat) : seq nat := digits_fuel n.+1 n.

Definition digit_char (d : nat) : ascii := ascii_of_nat (48 + d).

(** The replacement field [{:06d}]: the decimal digits, padded on the
    left with zeros to a width of at least six. *)
Definition format_06d (n : nat) : str :=
  let s := [seq digit_char d | d <- digits n] in
  nseq (6 - size s) (digit_char 0) ++ s.

(** A format string: literal text and [{:06d}] fields; [tpl.format(n)]
    replaces every field by the formatted argument. *)
Inductive piece := Text (s : str) | Field06d.

Definition format (tpl : seq piece) (n : nat) : str :=
  flatten [seq (if p is Text s then s else format_06d n) | p <- tpl].

(** [os.path.join(a, b)] of [posixpath]. *)
Definition join (a b : str) : str :=
  if b is c :: _ then
    if c == "/"%char then b
    else if (a == [::]) || (last c a == "/"%char) then a ++ b
    else a ++ "/"%char :: b
  else if (a == [::]) || (last "/"%char a == "/"%char) then a else rcons a "/"%char.

(** The two file names that [main] builds for the epoch of index
    [epoch], in the output directory [out_dir]. *)
Definition out_file (out_dir : str) (epoch : nat) : str :=
  join out_dir
    (format [:: Text (lit "y_sample_"); Field06d; Text (lit ".jpg")] (epoch + 1)).

Definition latest_file (out_dir : str) (epoch : nat) : str :=
  join out_dir (format [:: Text (lit "y_sample_latest.jpg")] (epoch + 1)).

(** Reading a number back from decimal digits. *)
Definition value (ds : seq nat) : nat := foldl (fun a d => a * 10 + d)%N 0%N ds.

Definition parse (s : str) : nat := value [seq (nat_of_ascii c - 48)%N | c <- s].

End Main.

(** An unbatched sample of two channels. *)
Definition zero_sample : Tensor.tensor := Tensor.Tensor [:: 2%N] [:: 0; 0].

(** * Proofs *)

(** ** Real-number facts in ring notation *)

Lemma RabsM (x y : R) : Rabs (x * y) = Rabs x * Rabs y.
Proof. exact: Rabs_mult. Qed.

Lemma Rabs1 : Rabs 1 = 1.
Proof. exact: Rabs_R1. Qed.

Lemma RabsN1 : Rabs (-1) = 1.
Proof. by rewrite -[RHS]Rabs1; exact: Rabs_Ropp. Qed.

Lemma Rabs_exp (x : R) : Rabs (exp x) = exp x.
Proof. by apply: Rabs_pos_eq; apply: Rlt_le; apply: exp_pos. Qed.

Lemma expD (x y : R) : exp (x + y) = exp x * exp y.
Proof. exact: exp_plus. Qed.

Lemma exp_neq0 (x : R) : exp x != 0.
Proof. by apply/eqP => e; have := exp_pos x; rewrite e => /Rlt_irrefl. Qed.

Lemma Rabs_prod (I : Type) (s : seq I) (F : I -> R) :
  Rabs (\prod_(i <- s) F i) = \prod_(i <- s) Rabs (F i).
Proof.
elim: s => [|i s IH]; first by rewrite !big_nil Rabs1.
by rewrite !big_cons RabsM IH.
Qed.

Lemma exp_sum (I : Type) (s : seq I) (F : I -> R) :
  exp (\sum_(i <- s) F i) = \prod_(i <- s) exp (F i).
Proof.
elim: s => [|i s IH]; first by rewrite !big_nil; exact: exp_0.
by rewrite !big_cons expD IH.
Qed.

Lemma Rabs_sign (x : R) : x != 0 -> Rabs (Rsign x) = 1.
Proof.
move=> /eqP nz; rewrite /Rsign.
case: (Rlt_dec 0%coqR x) => [gt0|le0] /=; first exact: Rabs1.
case: (Rlt_dec x 0%coqR) => [lt0|ge0] /=; first exact: RabsN1.
have x0 : x = 0 by apply: Rle_antisym; apply: Rnot_lt_le.
by case: nz.
Qed.

Lemma Rabs1_neq0 (x : R) : Rabs x = 1 -> x != 0.
Proof.
move=> ax; apply/eqP => x0; move: ax; rewrite x0 Rabs_R0 => e.
exact: R1_neq_R0 (esym e).
Qed.

(** ** The pivot sequence as a permutation *)

Section Pivots.

Variable n : nat.
Implicit Type piv : pivot_seq n.

Lemma swap_entriesE (fo : {ffun 'I_n -> 'I_n}) k j c :
  swap_entries fo k j c = fo (tperm k j c).
Proof.
rewrite ffunE permE /=.
by case: (c == k); last case: (c == j).
Qed.

Lemma foldl_swap_entries piv (s : seq 'I_n) (p : 'S_n) (fo : {ffun 'I_n -> 'I_n}) :
  (forall c, fo c = p c) ->
  forall c, foldl (fun fo k => swap_entries fo k (piv k)) fo s c
            = foldl (fun p k => (tperm k (piv k) * p)%g) p s c.
Proof.
elim: s p fo => [|k s IH] p fo Hfo c //=.
apply: IH => c'.
by rewrite swap_entriesE Hfo permM.
Qed.

Lemma final_orderE piv c : final_order piv c = pivot_perm piv c.
Proof.
apply: foldl_swap_entries => c'.
by rewrite ffunE perm1.
Qed.

Lemma unpack_P_perm piv : unpack_P piv = perm_mx (pivot_perm piv)^-1%g.
Proof.
apply/matrixP => r c; rewrite !mxE final_orderE.
congr (_ %:R); congr nat_of_bool.
by apply/eqP/eqP => [->|<-]; rewrite ?permK ?permKV.
Qed.

Lemma swap_rowsE k (b : 'M[R]_(n, k)) i j : swap_rows b i j = xrow i j b.
Proof.
apply/matrixP => r c; rewrite !mxE permE /=.
by case: (r == i); last case: (r == j).
Qed.

Lemma foldl_swap_rows k piv (s : seq 'I_n) (p : 'S_n) (b b0 : 'M[R]_(n, k)) :
  b = row_perm p b0 ->
  foldl (fun b i => swap_rows b i (piv i)) b s
  = row_perm (foldl (fun p k => (tperm k (piv k) * p)%g) p s) b0.
Proof.
elim: s p b => [|i s IH] p b Hb //=.
apply: IH.
by rewrite swap_rowsE /xrow Hb -row_permM.
Qed.

Lemma apply_pivotsE k piv (b : 'M[R]_(n, k)) :
  apply_pivots piv b = row_perm (pivot_perm piv) b.
Proof. by apply: foldl_swap_rows; rewrite row_perm1. Qed.

(** The row interchanges of [lu_solve] undo the permutation matrix that
    [lu_unpack] builds from the same pivot sequence. *)
Lemma apply_pivots_unpack_P k piv (b : 'M[R]_(n, k)) :
  apply_pivots piv (unpack_P piv *m b) = b.
Proof.
rewrite apply_pivotsE unpack_P_perm row_permE mulmxA -perm_mxM.
by rewrite mulgV perm_mx1 mul1mx.
Qed.

Lemma unpack_P_apply_pivots k piv (b : 'M[R]_(n, k)) :
  unpack_P piv *m apply_pivots piv b = b.
Proof.
rewrite apply_pivotsE unpack_P_perm row_permE mulmxA -perm_mxM.
by rewrite mulVg perm_mx1 mul1mx.
Qed.

End Pivots.

(** ** The parameters of a layer *)

Section LayerParameters.

Import Tensor.

Variable n : nat.
Implicit Type self : InvertibleConv1x1.module n.

Local Notation P := (@InvertibleConv1x1.P n).
Local Notation L := (@InvertibleConv1x1.L n).
Local Notation U := (@InvertibleConv1x1.U n).
Local Notation pivots := (@InvertibleConv1x1.pivots n).
Local Notation L_mask := (@InvertibleConv1x1.L_mask n).
Local Notation U_mask := (@InvertibleConv1x1.U_mask n).
Local Notation log_s := (@InvertibleConv1x1.log_s n).
Local Notation sign_s := (@InvertibleConv1x1.sign_s n).
Local Notation s_diag := (@InvertibleConv1x1.s_diag n).
Local Notation sum_log_s := (@InvertibleConv1x1.sum_log_s n).
Local Notation L_eff := (@InvertibleConv1x1.L_eff n).
Local Notation U_eff := (@InvertibleConv1x1.U_eff n).
Local Notation W := (@InvertibleConv1x1.W n).
Local Notation LU := (@InvertibleConv1x1.LU n).
Local Notation init := (@InvertibleConv1x1.init n).
Local Notation update := (@InvertibleConv1x1.update n).
Local Notation step := (@InvertibleConv1x1.step n).
Local Notation run := (@InvertibleConv1x1.run n).
Local Notation reachable := (@InvertibleConv1x1.reachable n).

(** The two method bodies only read the parameters. *)
Lemma forward_leaves self z ld :
  InvertibleConv1x1.leaves (InvertibleConv1x1.forward z ld) self = self.
Proof.
rewrite /InvertibleConv1x1.leaves /InvertibleConv1x1.forward.
rewrite /InvertibleConv1x1.bind /=.
case: (shape z) => [|B [|C sp]] //=.
case: (view_infer _ _) => [z3|] //=.
case: (matmul _ _) => [r|] //=.
by case: (view _ _).
Qed.

Lemma backward_leaves self y ld :
  InvertibleConv1x1.leaves (InvertibleConv1x1.backward y ld) self = self.
Proof.
rewrite /InvertibleConv1x1.leaves /InvertibleConv1x1.backward.
rewrite /InvertibleConv1x1.bind /=.
by case: (lu_solve _ _ _).
Qed.

Lemma step_frozen self e : frozen (step self e) = frozen self.
Proof.
by case: e => [z ld|y ld|L' U' ls] //=; rewrite ?forward_leaves ?backward_leaves.
Qed.

Lemma run_frozen self es : frozen (run self es) = frozen self.
Proof.
elim: es self => [|e es IH] self //=.
by rewrite /run /= -/(run _ es) IH step_frozen.
Qed.

Lemma init_well_built (LU0 : 'M[R]_n) piv :
  (forall i, LU0 i i != 0) -> well_built (init LU0 piv).
Proof.
move=> nz; split=> //= i.
by rewrite !mxE leqnn; apply: Rabs_sign.
Qed.

Lemma well_built_frozen self self' :
  frozen self' = frozen self -> well_built self -> well_built self'.
Proof.
rewrite /frozen => -[eP eI ep eL eU es] [hP hI hL hU hs].
by split; rewrite ?eP ?eI ?ep ?eL ?eU ?es.
Qed.

Lemma reachable_well_built self : reachable self -> well_built self.
Proof.
case=> LU0 [piv [nz [es ->]]].
apply: well_built_frozen (init_well_built piv nz).
exact: run_frozen.
Qed.

Section Entries.

Variable self : InvertibleConv1x1.module n.
Hypothesis wb : well_built self.

Lemma s_diagE i : s_diag self 0 i = sign_s self 0 i * exp (log_s self 0 i).
Proof. by rewrite !mxE. Qed.

Lemma s_diag_neq0 i : s_diag self 0 i != 0.
Proof.
case: wb => _ _ _ _ hs.
by rewrite s_diagE mulf_neq0 ?exp_neq0 //; apply: Rabs1_neq0.
Qed.

Lemma Rabs_s_diag i : Rabs (s_diag self 0 i) = exp (log_s self 0 i).
Proof.
case: wb => _ _ _ _ hs.
by rewrite s_diagE RabsM hs mul1r Rabs_exp.
Qed.

Lemma L_effE i j :
  L_eff self i j = if (j < i)%N then L self i j else (i == j)%:R.
Proof.
case: wb => _ hI hL _ _.
rewrite /InvertibleConv1x1.L_eff hI hL !mxE.
case: ltnP => ji; first by rewrite mulr1 -(inj_eq val_inj) gtn_eqF ?addr0.
by rewrite mulr0 add0r.
Qed.

Lemma U_effE i j :
  U_eff self i j = if (i < j)%N then U self i j
                   else if i == j then s_diag self 0 i else 0.
Proof.
case: wb => _ _ _ hU _.
rewrite /InvertibleConv1x1.U_eff hU !mxE.
case: ltnP => ij.
  by rewrite mulr1 -(inj_eq val_inj) ltn_eqF //= mulr0n addr0.
by rewrite mulr0 add0r; case: eqP => [->|_]; rewrite ?mulr1n ?mulr0n.
Qed.

Lemma LUE i j :
  LU self i j = if (j < i)%N then L self i j
                else if (i < j)%N then U self i j else s_diag self 0 i.
Proof.
case: wb => _ _ hL hU _.
rewrite /InvertibleConv1x1.LU hL hU !mxE.
case: (ltngtP j i) => ij.
- by rewrite mulr1 mulr0 addr0 -(inj_eq val_inj) gtn_eqF // mulr0n addr0.
- by rewrite mulr0 mulr1 add0r -(inj_eq val_inj) ltn_eqF // mulr0n addr0.
- by rewrite !mulr0 !add0r (val_inj ij) eqxx.
Qed.

(** The packed matrix of [backward] holds the two factors of [forward]. *)
Lemma LU_lower (i j : 'I_n) : (j < i)%N -> LU self i j = L_eff self i j.
Proof. by move=> ji; rewrite LUE L_effE ji. Qed.

Lemma LU_upper (i j : 'I_n) : (i <= j)%N -> LU self i j = U_eff self i j.
Proof.
move=> ij; rewrite LUE U_effE ltnNge ij /=.
case: ltnP => // ji; have /val_inj -> : val i = val j.
  by apply/eqP; rewrite eqn_leq ij ji.
by rewrite eqxx.
Qed.

(** Unpacking the matrix of [backward] with the stored pivot sequence
    gives the three factors of [forward]. *)
Lemma lu_unpack_LU :
  lu_unpack (LU self) (pivots self) = (P self, L_eff self, U_eff self).
Proof.
rewrite /lu_unpack; congr (_, _, _).
- by case: wb.
- apply/matrixP => i j; rewrite mxE; case: ltnP => ji; first exact: LU_lower.
  by rewrite L_effE ltnNge ji.
- apply/matrixP => i j; rewrite mxE; case: leqP => ij; first exact: LU_upper.
  by rewrite U_effE ltnNge (ltnW ij) /= -(inj_eq val_inj) gtn_eqF.
Qed.

Lemma L_eff_trig : is_trig_mx (L_eff self).
Proof.
apply/is_trig_mxP => i j ij; rewrite L_effE ltnNge (ltnW ij) /=.
by rewrite -(inj_eq val_inj) ltn_eqF.
Qed.

Lemma U_effT_trig : is_trig_mx (U_eff self)^T.
Proof.
apply/is_trig_mxP => i j ij; rewrite mxE U_effE ltnNge (ltnW ij) /=.
by rewrite -(inj_eq val_inj) gtn_eqF.
Qed.

Lemma det_L_eff : \det (L_eff self) = 1.
Proof.
rewrite (det_trig L_eff_trig) big1 // => i _.
by rewrite L_effE ltnn eqxx.
Qed.

Lemma det_U_eff : \det (U_eff self) = \prod_(i < n) s_diag self 0 i.
Proof.
rewrite -det_tr (det_trig U_effT_trig); apply: eq_bigr => i _.
by rewrite mxE U_effE ltnn eqxx.
Qed.

Lemma det_W :
  \det (W self) =
  (-1) ^+ (pivot_perm (pivots self))^-1%g * \prod_(i < n) s_diag self 0 i.
Proof.
rewrite /InvertibleConv1x1.W !det_mulmx det_L_eff det_U_eff mulr1.
by case: wb => -> _ _ _ _; rewrite unpack_P_perm det_perm.
Qed.

Lemma Rabs_det_W : Rabs (\det (W self)) = exp (sum_log_s self).
Proof.
rewrite det_W RabsM.
have -> : Rabs ((-1) ^+ (pivot_perm (pivots self))^-1%g) = 1.
  by case: (odd_perm _); rewrite ?expr1 ?expr0 ?RabsN1 ?Rabs1.
rewrite mul1r Rabs_prod /InvertibleConv1x1.sum_log_s exp_sum.
by apply: eq_bigr => i _; rewrite Rabs_s_diag.
Qed.

Lemma det_W_neq0 : \det (W self) != 0.
Proof.
rewrite det_W mulf_neq0 //; first by rewrite signr_eq0.
by apply/prodf_neq0 => i _; apply: s_diag_neq0.
Qed.

End Entries.

End LayerParameters.

(** ** The triangular solves *)

Section Substitution.

Variables n k : nat.

(** [A] is the packed factor that [lu_solve] reads; [Lm] and [Um] are
    the triangular matrices it stands for. *)
Variables A Lm Um : 'M[R]_n.

Hypothesis Lm_lower : forall i j : 'I_n, (j < i)%N -> Lm i j = A i j.
Hypothesis Lm_diag : forall i, Lm i i = 1.
Hypothesis Lm_upper : forall i j : 'I_n, (i < j)%N -> Lm i j = 0.
Hypothesis Um_upper : forall i j : 'I_n, (i <= j)%N -> Um i j = A i j.
Hypothesis Um_lower : forall i j : 'I_n, (j < i)%N -> Um i j = 0.
Hypothesis A_diag : forall i, A i i != 0.

Lemma unit_lower_row (x : 'M[R]_(n, k)) (r : 'I_n) c :
  (Lm *m x) r c = \sum_(j < n | (j < r)%N) A r j * x j c + x r c.
Proof.
rewrite mxE (bigID (fun j : 'I_n => (j < r)%N)) /=; congr (_ + _).
  by apply: eq_bigr => j jr; rewrite Lm_lower.
rewrite (bigD1 r) /= ?ltnn // Lm_diag mul1r big1 ?addr0 // => j.
rewrite -leqNgt => /andP [rj jr]; rewrite Lm_upper ?mul0r //.
by rewrite ltn_neqAle rj andbT eq_sym.
Qed.

Lemma upper_row (x : 'M[R]_(n, k)) (r : 'I_n) c :
  (Um *m x) r c = A r r * x r c + \sum_(j < n | (r < j)%N) A r j * x j c.
Proof.
rewrite mxE (bigID (fun j : 'I_n => (r < j)%N)) /= addrC; congr (_ + _); last first.
  by apply: eq_bigr => j rj; rewrite Um_upper // ltnW.
rewrite (bigD1 r) /= ?ltnn // Um_upper // big1 ?addr0 // => j.
rewrite -leqNgt => /andP [jr rj]; rewrite Um_lower ?mul0r //.
by rewrite ltn_neqAle jr andbT.
Qed.

Lemma fsub_uptoE (x : 'M[R]_(n, k)) m (r : 'I_n) c :
  fsub_upto A (Lm *m x) m r c = if (r < m)%N then x r c else (Lm *m x) r c.
Proof.
elim: m r c => [|m IH] r c //=.
rewrite mxE ltnS leq_eqVlt; case: eqP => [rm|_] /=; last exact: IH.
rewrite IH rm ltnn unit_lower_row rm.
have -> : \sum_(j < n | (j < m)%N) A r j * fsub_upto A (Lm *m x) m j c
          = \sum_(j < n | (j < m)%N) A r j * x j c.
  by apply: eq_bigr => j jm; rewrite IH jm.
by rewrite [_ + x r c]addrC addrK.
Qed.

Lemma fsubK (x : 'M[R]_(n, k)) : fsub A (Lm *m x) = x.
Proof. by apply/matrixP => r c; rewrite /fsub fsub_uptoE ltn_ord. Qed.

Lemma bsub_uptoE (x : 'M[R]_(n, k)) m (r : 'I_n) c :
  (m <= n)%N ->
  bsub_upto A (Um *m x) m r c = if (n - m <= r)%N then x r c else (Um *m x) r c.
Proof.
elim: m r c => [|m IH] r c mn /=.
  by rewrite subn0 leqNgt ltn_ord.
rewrite mxE; set i := (n - m.+1)%N.
have e : (n - m)%N = i.+1 by rewrite /i subnSK.
have IH' r' c' : bsub_upto A (Um *m x) m r' c'
                 = if (i < r')%N then x r' c' else (Um *m x) r' c'.
  by rewrite IH ?(ltnW mn) // e.
rewrite [(i <= r)%N]leq_eqVlt [i == _]eq_sym.
case: eqP => [ri|_] /=; last exact: IH'.
rewrite IH' ri ltnn upper_row ri.
have -> : \sum_(j < n | (i < j)%N) A r j * bsub_upto A (Um *m x) m j c
          = \sum_(j < n | (i < j)%N) A r j * x j c.
  by apply: eq_bigr => j ij; rewrite IH' ij.
by rewrite addrK mulrC mulKf.
Qed.

Lemma bsubK (x : 'M[R]_(n, k)) : bsub A (Um *m x) = x.
Proof. by apply/matrixP => r c; rewrite /bsub bsub_uptoE // subnn. Qed.

End Substitution.

(** ** The inverse of the effective matrix *)

Section MatrixInverse.

Variables n k : nat.
Variable self : InvertibleConv1x1.module n.
Hypothesis wb : well_built self.

Local Notation W := (InvertibleConv1x1.W self).
Local Notation LU := (InvertibleConv1x1.LU self).
Local Notation pivots := (InvertibleConv1x1.pivots self).

(** The pivoted solve of [backward] undoes the product of [forward]. *)
Lemma fsub_L_eff (x : 'M[R]_(n, k)) :
  fsub LU (InvertibleConv1x1.L_eff self *m x) = x.
Proof.
apply: fsubK.
- by move=> i j ji; rewrite LU_lower.
- by move=> i; rewrite L_effE // ltnn eqxx.
- move=> i j ij; rewrite L_effE // ltnNge (ltnW ij) /=.
  by rewrite -(inj_eq val_inj) ltn_eqF.
Qed.

Lemma bsub_U_eff (x : 'M[R]_(n, k)) :
  bsub LU (InvertibleConv1x1.U_eff self *m x) = x.
Proof.
apply: bsubK.
- by move=> i j ij; rewrite LU_upper.
- move=> i j ji; rewrite U_effE // ltnNge (ltnW ji) /=.
  by rewrite -(inj_eq val_inj) gtn_eqF.
- by move=> i; rewrite LUE // ltnn; apply: s_diag_neq0.
Qed.

(** The pivoted solve of [backward] undoes the product of [forward]. *)
Lemma lu_solve_mxK (x : 'M[R]_(n, k)) : lu_solve_mx LU pivots (W *m x) = x.
Proof.
rewrite /lu_solve_mx /InvertibleConv1x1.W.
case: (wb) => -> _ _ _ _; rewrite -!mulmxA apply_pivots_unpack_P.
by rewrite fsub_L_eff bsub_U_eff.
Qed.

Lemma W_unit : W \in unitmx.
Proof. by rewrite unitmxE unitfE det_W_neq0. Qed.

Lemma lu_solve_mxE (b : 'M[R]_(n, k)) : lu_solve_mx LU pivots b = invmx W *m b.
Proof. by rewrite -{1}[b](mulKVmx W_unit) lu_solve_mxK. Qed.

Lemma mulmx_lu_solve (b : 'M[R]_(n, k)) : W *m lu_solve_mx LU pivots b = b.
Proof. by rewrite lu_solve_mxE mulKVmx // W_unit. Qed.

End MatrixInverse.

(** ** Batches of matrices in a flat sequence *)

Section Blocks.

Import Tensor.

Variables n k : nat.

Lemma entryE (A : 'M[R]_(n, k)) (i : 'I_n) (j : 'I_k) : entry A i j = A i j.
Proof.
rewrite /entry !insubT //= => hi hj.
by congr (A _ _); apply: val_inj.
Qed.

Lemma block_index (q : nat) (i : 'I_n) (j : 'I_k) :
  let x := ((q * n + i) * k + j)%N in
  [/\ (x %/ (n * k))%N = q, ((x %/ k) %% n)%N = i & (x %% k)%N = j].
Proof.
have k0 : (0 < k)%N by apply: leq_trans (ltn_ord j).
have n0 : (0 < n)%N by apply: leq_trans (ltn_ord i).
have e : (((q * n + i) * k + j) %/ k = q * n + i)%N.
  by rewrite divnMDl // divn_small // addn0.
split=> /=.
- by rewrite [(n * k)%N]mulnC divnMA e divnMDl // divn_small // addn0.
- by rewrite e modnMDl modn_small.
- by rewrite modnMDl modn_small.
Qed.

Lemma block_bound (Q q : nat) (i : 'I_n) (j : 'I_k) :
  (q < Q)%N -> ((q * n + i) * k + j < Q * n * k)%N.
Proof.
move=> qQ; apply: (@leq_trans ((q * n + i).+1 * k)).
  by rewrite mulSn [(k + _)%N]addnC ltn_add2l.
rewrite leq_mul2r; apply/orP; right.
apply: (@leq_trans (q.+1 * n)); first by rewrite mulSn [(n + _)%N]addnC ltn_add2l.
by rewrite leq_mul2r qQ orbT.
Qed.

Lemma size_unblock Q (f : nat -> 'M[R]_(n, k)) :
  size (unblock Q f) = (Q * n * k)%N.
Proof. by rewrite size_mkseq. Qed.

(** Reading a matrix of a batch written by [unblock]. *)
Lemma block_unblock Q (f : nat -> 'M[R]_(n, k)) q :
  (q < Q)%N -> block n k (unblock Q f) q = f q.
Proof.
move=> qQ; apply/matrixP => i j; rewrite mxE nth_mkseq ?block_bound //.
by case: (block_index q i j) => -> -> ->; rewrite entryE.
Qed.

(** Writing back the matrices read from a batch. *)
Lemma unblock_block Q (d : seq R) :
  size d = (Q * n * k)%N -> unblock Q (block n k d) = d.
Proof.
move=> sz; apply: (@eq_from_nth _ 0); first by rewrite size_unblock.
move=> x; rewrite size_unblock => xlt; rewrite nth_mkseq //.
have k0 : (0 < k)%N by case: (k) xlt => //; rewrite muln0.
have n0 : (0 < n)%N by case: (n) xlt => //; rewrite muln0.
have hi : ((x %/ k) %% n < n)%N by rewrite ltn_pmod.
have hj : (x %% k < k)%N by rewrite ltn_pmod.
rewrite (entryE _ (Ordinal hi) (Ordinal hj)) mxE /=; congr (nth _ _ _).
by rewrite [(n * k)%N]mulnC divnMA -divn_eq -divn_eq.
Qed.

End Blocks.

(** ** The two methods on tensors *)

Section ConvMethods.

Import Tensor.

Variable n : nat.
Variable self : InvertibleConv1x1.module n.

Local Notation W := (InvertibleConv1x1.W self).
Local Notation LU := (InvertibleConv1x1.LU self).
Local Notation pivots := (InvertibleConv1x1.pivots self).
Local Notation sum_log_s := (InvertibleConv1x1.sum_log_s self).

Lemma forwardE z ld :
  InvertibleConv1x1.forward z ld self =
  (if forward_accepts n z
   then Some (Tensor (shape z) (forward_data self z), add_scalar ld sum_log_s)
   else None, self).
Proof.
rewrite /InvertibleConv1x1.forward /InvertibleConv1x1.bind /=.
rewrite /forward_accepts /forward_data /view_infer -/W.
case: (shape z) => [|B [|C sp]] //=; rewrite muln1.
case: ltnP => [pos|_] //=.
rewrite dvdn_mul ?dvdnn ?dvdn_mulr //= mulnA mulKn // /matmul /=.
case: eqP => [->|_] //=.
by rewrite /view /= muln1 eqxx.
Qed.

Lemma broadcast1 (bs : seq nat) :
  broadcast bs [:: 1%N] = Some (if bs is [::] then [:: 1%N] else bs).
Proof.
rewrite /broadcast; case: (lastP bs) => [|s x] //=.
rewrite rev_rcons /= eqxx orbT.
have -> : broadcast_rev (rev s) [::] = Some (rev s) by case: (rev s).
by rewrite /= -rev_rcons revK; case: (s).
Qed.

Lemma last_dim_rcons (s : seq nat) m :
  (if rcons s m is d :: ds then last d ds == n else false) = (m == n).
Proof. by case: s => //= a s; rewrite last_rcons. Qed.

Lemma batch_dims_rcons (s : seq nat) m :
  (if rcons s m is d :: ds then belast d ds else [::]) = s.
Proof. by case: s => //= a s; rewrite belast_rcons. Qed.

Lemma backwardE y ld :
  InvertibleConv1x1.backward y ld self =
  (if backward_accepts n y
   then Some (Tensor (rcons (solve_batch y) n) (backward_data self y),
              sub_scalar ld sum_log_s)
   else None, self).
Proof.
rewrite /InvertibleConv1x1.backward /InvertibleConv1x1.bind /=.
rewrite /backward_accepts /backward_data -/LU.
rewrite /solve_batch /lu_solve /unsqueeze_last.
rewrite [shape (Tensor _ _)]/= [data (Tensor _ _)]/= rev_rcons.
case: (lastP (shape y)) => [|s m] //.
rewrite rev_rcons last_dim_rcons batch_dims_rcons revK.
case: eqP => // _; rewrite broadcast1 /squeeze_last /=.
by rewrite rev_cat /= -rev_rcons revK -cats1.
Qed.

Lemma forward_returns z ld :
  InvertibleConv1x1.returns (InvertibleConv1x1.forward z ld) self =
  if forward_accepts n z
  then Some (Tensor (shape z) (forward_data self z), add_scalar ld sum_log_s)
  else None.
Proof. by rewrite /InvertibleConv1x1.returns forwardE. Qed.

Lemma backward_returns y ld :
  InvertibleConv1x1.returns (InvertibleConv1x1.backward y ld) self =
  if backward_accepts n y
  then Some (Tensor (rcons (solve_batch y) n) (backward_data self y),
             sub_scalar ld sum_log_s)
  else None.
Proof. by rewrite /InvertibleConv1x1.returns backwardE. Qed.

End ConvMethods.

Section ConvRoundTrip.

Import Tensor.

Variable n : nat.
Variable self : InvertibleConv1x1.module n.

Local Notation W := (InvertibleConv1x1.W self).
Local Notation LU := (InvertibleConv1x1.LU self).
Local Notation pivots := (InvertibleConv1x1.pivots self).
Local Notation sum_log_s := (InvertibleConv1x1.sum_log_s self).

Lemma unblock_ext k Q (f g : nat -> 'M[R]_(n, k)) :
  (forall q, (q < Q)%N -> f q = g q) -> unblock Q f = unblock Q g.
Proof.
move=> fg; apply: (@eq_from_nth _ 0); first by rewrite !size_unblock.
move=> x; rewrite size_unblock => xlt; rewrite !nth_mkseq // fg //.
move: xlt; rewrite -mulnA => xlt.
have pos : (0 < n * k)%N by case: (n * k)%N xlt => //; rewrite muln0.
by rewrite ltn_divLR.
Qed.

Lemma sub_add_scalar (ld : tensor) (s : R) : sub_scalar (add_scalar ld s) s = ld.
Proof.
case: ld => sh d; rewrite /sub_scalar /add_scalar /=; congr Tensor.
by rewrite -map_comp -[RHS]map_id; apply: eq_map => v /=; rewrite addrK.
Qed.

Lemma add_sub_scalar (ld : tensor) (s : R) : add_scalar (sub_scalar ld s) s = ld.
Proof.
case: ld => sh d; rewrite /sub_scalar /add_scalar /=; congr Tensor.
by rewrite -map_comp -[RHS]map_id; apply: eq_map => v /=; rewrite subrK.
Qed.

Hypothesis wb : well_built self.

(** On a [(B, n)] batch [backward] returns what [forward] was given. *)
Lemma backward_forward B (x ld : tensor) :
  shape x = [:: B; n] -> wf x -> (0 < B)%N -> (0 < n)%N ->
  exists z ld',
    InvertibleConv1x1.returns (InvertibleConv1x1.forward x ld) self
    = Some (z, ld')
    /\ InvertibleConv1x1.returns (InvertibleConv1x1.backward z ld') self
       = Some (x, ld).
Proof.
case: x => sh d /= -> /=; rewrite /wf /= muln1 => sz B0 n0.
rewrite forward_returns /forward_accepts /forward_data /= muln_gt0 B0 n0 eqxx /=.
eexists; eexists; split; first by [].
rewrite backward_returns /backward_accepts /backward_data /solve_batch /= eqxx.
rewrite sub_add_scalar muln1; congr (Some (Tensor _ _, _)).
rewrite (@unblock_ext _ _ _ (block n 1 d)) ?unblock_block ?muln1 //.
by move=> q qB; rewrite block_unblock // lu_solve_mxK.
Qed.

End ConvRoundTrip.

(** ** The two passes of Glow *)

Section GlowPasses.

Import Glow.

Variable X : Type.
Variable V : zmodType.

Local Notation layer := (BijectiveLayer X V).
Local Notation glow := (Glow.module X V).

(** What the contract says of the four components of a layer. *)
Lemma contract_state (l : layer) x :
  contract l -> backward_state l (forward_state l x) = x.
Proof. by move=> /(_ x) []. Qed.

Lemma contract_logdet (l : layer) x :
  contract l -> backward_logdet l (forward_state l x) = forward_logdet l x.
Proof.
move=> /(_ x) [] _ /eqP; rewrite add0r subr_eq0 => /eqP e.
by rewrite -e.
Qed.

Variable self : glow.

Lemma forward_stageE (st : pass X V) i :
  forward_stage self st i
  = (stage_forward_state self i st.1.1, st.1.2 + stage_forward_logdet self i st.1.1,
     st.2 ++ forward_stage_calls i).
Proof.
case: st => [[z ld] tr]; rewrite /forward_stage /call_forward /layer_forward /=.
by rewrite /stage_forward_logdet !addrA -!cats1 -!catA.
Qed.

Lemma backward_stageE (st : pass X V) i :
  backward_stage self st i
  = (stage_backward_state self i st.1.1, st.1.2 - stage_backward_logdet self i st.1.1,
     st.2 ++ backward_stage_calls i).
Proof.
case: st => [[y ld] tr]; rewrite /backward_stage /call_backward /layer_backward /=.
by rewrite /stage_backward_logdet !opprD !addrA -!cats1 -!catA.
Qed.

Lemma stage_stateK i z :
  stage_ok self i -> stage_backward_state self i (stage_forward_state self i z) = z.
Proof.
case=> ha hl hc; rewrite /stage_backward_state /stage_forward_state.
by rewrite !contract_state.
Qed.

Lemma stage_logdetK i z :
  stage_ok self i ->
  stage_backward_logdet self i (stage_forward_state self i z) = stage_forward_logdet self i z.
Proof.
case=> ha hl hc; rewrite /stage_backward_logdet /stage_forward_state.
rewrite /stage_forward_logdet !contract_state // !contract_logdet //.
by rewrite addrC [X in _ + X = _]addrC addrA.
Qed.

(** Running stages [s] forward, then the same stages in reverse order
    backward, gives back the batch and removes from the accumulator what
    the forward run added. *)
Lemma stages_roundtrip (s : seq nat) :
  (forall i, i \in s -> stage_ok self i) ->
  forall (y : X) (a : V) (t : seq call),
  let st := foldl (forward_stage self) (y, a, t) s in
  forall (b : V) (u : seq call),
    (foldl (backward_stage self) (st.1.1, b, u) (rev s)).1
    = (y, b - (st.1.2 - a)).
Proof.
elim: s => [|i s IH] ok y a t /=; first by move=> b u; rewrite subrr subr0.
move=> b u; rewrite rev_cons -cats1 foldl_cat /= backward_stageE /=.
have oks j : j \in s -> stage_ok self j by move=> js; apply: ok; rewrite inE js orbT.
have oki : stage_ok self i by apply: ok; rewrite inE eqxx.
rewrite forward_stageE /= (IH oks) /= stage_stateK // stage_logdetK //.
congr (_, _); rewrite !opprB -addrA; congr (_ + _).
by rewrite addrAC addrK.
Qed.

Lemma forward_calls_stages (s : seq nat) (st : pass X V) :
  (foldl (forward_stage self) st s).2
  = st.2 ++ flatten [seq forward_stage_calls i | i <- s].
Proof.
elim: s st => [|i s IH] st /=; first by rewrite cats0.
by rewrite IH forward_stageE /= -catA.
Qed.

Lemma backward_calls_stages (s : seq nat) (st : pass X V) :
  (foldl (backward_stage self) st s).2
  = st.2 ++ flatten [seq backward_stage_calls i | i <- s].
Proof.
elim: s st => [|i s IH] st /=; first by rewrite cats0.
by rewrite IH backward_stageE /= -catA.
Qed.

(** The batch and the accumulator after a run of stages are those that
    making the calls of these stages one after the other gives. *)
Lemma forward_stages_perform (s : seq nat) (st : pass X V) :
  (foldl (forward_stage self) st s).1
  = foldl (perform self) st.1 (flatten [seq forward_stage_calls i | i <- s]).
Proof.
elim: s st => [|i s IH] st //=; rewrite IH; congr foldl.
by case: st => [[z ld] tr].
Qed.

Lemma backward_stages_perform (s : seq nat) (st : pass X V) :
  (foldl (backward_stage self) st s).1
  = foldl (perform self) st.1 (flatten [seq backward_stage_calls i | i <- s]).
Proof.
elim: s st => [|i s IH] st //=; rewrite IH; congr foldl.
by case: st => [[z ld] tr].
Qed.

Lemma inverse_forward_calls (s : seq nat) :
  [seq inverse_call c | c <- rev (flatten [seq forward_stage_calls i | i <- s])]
  = flatten [seq backward_stage_calls i | i <- rev s].
Proof.
elim: s => [|i s IH] //=.
by rewrite !rev_cons !map_rcons flatten_rcons -IH -!cats1 -!catA.
Qed.

End GlowPasses.

(** ** Facts about the concrete instances *)

Lemma unit_conv_reachable : InvertibleConv1x1.reachable unit_conv.
Proof.
exists 1%:M, [ffun i => i]; split; last by exists [::].
by move=> i; rewrite mxE eqxx oner_neq0.
Qed.

Lemma flip_layer_contract : Glow.contract flip_layer.
Proof. by case. Qed.

Lemma flip_glow_wf : Glow.wf flip_glow.
Proof. by []. Qed.

Lemma flip_glow_contract : honours_contract flip_glow.
Proof.
by split=> -[|[|i]] //= _; apply: flip_layer_contract.
Qed.

Lemma init_wf (X : Type) (V : zmodType) dims0 N
    (a : nat -> seq nat -> Glow.BijectiveLayer X V)
    (l : nat -> nat -> Glow.BijectiveLayer X V)
    (c : nat -> seq nat -> bool -> Glow.BijectiveLayer X V) :
  Glow.wf (Glow.init dims0 N a l c).
Proof. by split; rewrite /= size_map size_iota. Qed.


Section ConvAsLayer.

Import Tensor.

Variables n B : nat.
Variable self : InvertibleConv1x1.module n.

Lemma sampleE (x : 'M[R]_(n, B)) (q : 'I_B) : sample x q = col q x.
Proof. by apply/matrixP => i j; rewrite !mxE entryE. Qed.

Lemma sample_mul (A : 'M[R]_n) (x : 'M[R]_(n, B)) q :
  (q < B)%N -> A *m sample x q = sample (A *m x) q.
Proof. by move=> qB; rewrite -[q]/(val (Ordinal qB)) !sampleE !colE mulmxA. Qed.

Lemma add_scalar_logdet (a : 'rV[R]_B) (s : R) :
  add_scalar (logdet_tensor a) s = logdet_tensor (a + const_mx s).
Proof.
rewrite /add_scalar /logdet_tensor /=; congr Tensor.
apply: (@eq_from_nth _ 0); first by rewrite size_map !size_mkseq.
move=> q; rewrite size_map size_mkseq => qB.
rewrite (nth_map 0) ?size_mkseq // !nth_mkseq //.
by rewrite -[q]/(val (Ordinal qB)) !(entryE _ 0) !mxE.
Qed.

Lemma sub_scalar_logdet (a : 'rV[R]_B) (s : R) :
  sub_scalar (logdet_tensor a) s = logdet_tensor (a - const_mx s).
Proof.
rewrite /sub_scalar /logdet_tensor /=; congr Tensor.
apply: (@eq_from_nth _ 0); first by rewrite size_map !size_mkseq.
move=> q; rewrite size_map size_mkseq => qB.
rewrite (nth_map 0) ?size_mkseq // !nth_mkseq //.
by rewrite -[q]/(val (Ordinal qB)) !(entryE _ 0) !mxE.
Qed.

Hypothesis B_pos : (0 < B)%N.
Hypothesis n_pos : (0 < n)%N.

(** On a non-empty batch of [B] samples of [n] channels the method
    [forward] is the forward map of the layer [conv_layer]. *)
Lemma forward_conv_layer (x : 'M[R]_(n, B)) (a : 'rV[R]_B) :
  InvertibleConv1x1.returns
    (InvertibleConv1x1.forward (batch_tensor x) (logdet_tensor a)) self
  = let r := Glow.layer_forward (conv_layer B_pos n_pos self) x a in
    Some (batch_tensor r.1, logdet_tensor r.2).
Proof.
rewrite forward_returns /forward_accepts /forward_data /= muln_gt0 B_pos n_pos.
rewrite eqxx /= add_scalar_logdet; congr (Some (Tensor _ _, _)).
apply: unblock_ext => q qB.
by rewrite block_unblock // sample_mul.
Qed.

Hypothesis wb : well_built self.

Lemma backward_conv_layer (y : 'M[R]_(n, B)) (a : 'rV[R]_B) :
  InvertibleConv1x1.returns
    (InvertibleConv1x1.backward (batch_tensor y) (logdet_tensor a)) self
  = let r := Glow.layer_backward (conv_layer B_pos n_pos self) y a in
    Some (batch_tensor r.1, logdet_tensor r.2).
Proof.
rewrite backward_returns /backward_accepts /backward_data /solve_batch /= eqxx.
rewrite sub_scalar_logdet muln1; congr (Some (Tensor _ _, _)).
apply: unblock_ext => q qB.
by rewrite block_unblock // !lu_solve_mxE // sample_mul.
Qed.

Lemma conv_layer_contract : Glow.contract (conv_layer B_pos n_pos self).
Proof.
move=> x; rewrite /Glow.layer_backward /Glow.layer_forward /=.
by rewrite lu_solve_mxK // add0r subrr.
Qed.

End ConvAsLayer.

Section GlowRoundTrip.

Variable X : Type.
Variable V : zmodType.
Implicit Type self : Glow.module X V.

Lemma honoured_stages self :
  Glow.wf self -> honours_contract self ->
  forall i, i \in iota 0 (Glow.n_layers self) -> stage_ok self i.
Proof.
move=> [sa sl sc] [ha hl hc] i; rewrite mem_iota add0n /= => iN.
by split; [apply: ha; rewrite sa | apply: hl; rewrite sl | apply: hc; rewrite sc].
Qed.

(** The backward pass on the output of the forward pass returns the
    input and the opposite of the forward log-determinant. *)
Lemma glow_roundtrip self (y : X) :
  Glow.wf self -> honours_contract self ->
  Glow.backward self (Glow.forward self y).1
  = (y, - (Glow.forward self y).2).
Proof.
move=> wfs hc; rewrite /Glow.backward /Glow.forward /Glow.backward_pass.
rewrite /Glow.forward_pass.
by rewrite (stages_roundtrip (honoured_stages wfs hc)) /= subr0 sub0r.
Qed.

End GlowRoundTrip.

Section GlowOverConv.

Variables n B : nat.
Variable N : nat.
Variable dims0 : seq nat.
Variable new_Actnorm : nat -> seq nat -> Glow.BijectiveLayer 'M[R]_(n, B) 'rV[R]_B.
Variable new_AffineCoupling :
  nat -> seq nat -> bool -> Glow.BijectiveLayer 'M[R]_(n, B) 'rV[R]_B.
Variable convs : nat -> InvertibleConv1x1.module n.

Hypothesis B_pos : (0 < B)%N.
Hypothesis n_pos : (0 < n)%N.
Hypothesis convs_reachable : forall i, InvertibleConv1x1.reachable (convs i).
Hypothesis Actnorm_contract : forall i, Glow.contract (new_Actnorm i dims0).
Hypothesis AffineCoupling_contract :
  forall i odd, Glow.contract (new_AffineCoupling i dims0 odd).

Local Notation glow :=
  (glow_over_conv B_pos n_pos dims0 N new_Actnorm convs new_AffineCoupling).

Lemma glow_over_conv_contract : honours_contract glow.
Proof.
split=> i; rewrite size_map size_iota => iN.
- by rewrite (nth_map 0%N) ?size_iota.
- rewrite (nth_map 0%N) ?size_iota //; apply: conv_layer_contract.
  exact: reachable_well_built.
- by rewrite (nth_map 0%N) ?size_iota.
Qed.

Lemma glow_over_conv_roundtrip (y : 'M[R]_(n, B)) :
  Glow.backward glow (Glow.forward glow y).1 = (y, - (Glow.forward glow y).2).
Proof. exact: glow_roundtrip (init_wf _ _ _ _ _) glow_over_conv_contract. Qed.

End GlowOverConv.

(** ** A solve along the wrong dimension *)

Section Shear.

Import Tensor.

Lemma final_order_id n : final_order [ffun i : 'I_n => i] = [ffun i => i].
Proof.
rewrite /final_order; elim: (enum 'I_n) => [|k s IH] //=.
rewrite -[X in foldl _ X s]/([ffun c : 'I_n => c]) in IH *.
have -> : swap_entries [ffun c : 'I_n => c] k ([ffun i : 'I_n => i] k)
          = [ffun c => c].
  by apply/ffunP => c; rewrite !ffunE; case: eqP => // ->.
exact: IH.
Qed.

Lemma unpack_P_id n : unpack_P [ffun i : 'I_n => i] = 1%:M.
Proof.
by apply/matrixP => r c; rewrite !mxE final_order_id ffunE.
Qed.

Lemma shear_conv_reachable : InvertibleConv1x1.reachable shear_conv.
Proof.
exists 1%:M, [ffun i => i]; split.
  by move=> i; rewrite mxE eqxx oner_neq0.
by exists [:: InvertibleConv1x1.Train 0 (const_mx 1) 0].
Qed.

Lemma W_shear_conv (i j : 'I_2) :
  InvertibleConv1x1.W shear_conv i j = ((i <= j)%N)%:R.
Proof.
have wb := reachable_well_built shear_conv_reachable.
rewrite /InvertibleConv1x1.W.
have -> : InvertibleConv1x1.P shear_conv = 1%:M by exact: unpack_P_id.
have -> : InvertibleConv1x1.L_eff shear_conv = 1%:M.
  apply/matrixP => r c; rewrite (L_effE wb) !mxE.
  by case: ltnP => // cr; rewrite -(inj_eq val_inj) gtn_eqF.
rewrite !mul1mx (U_effE wb) (s_diagE) !mxE leqnn eqxx mulr1n.
have -> : Rsign 1 * exp 0 = 1.
  rewrite /Rsign; case: (Rlt_dec 0%coqR 1) => [lt01|[]] /=; last exact: Rlt_0_1.
  by rewrite mul1r; exact: exp_0.
by case: i => [[|[|i]] hi] //; case: j => [[|[|j]] hj].
Qed.

End Shear.

Section ShearSolve.

Import Tensor.

Local Notation fwd := (InvertibleConv1x1.forward dot_image (zeros [:: 1%N])).

(** On [dot_image] the first element of the result of [forward] is 1. *)
Lemma forward_dot_image0 : nth 0 (forward_data shear_conv dot_image) 0 = 1.
Proof.
have /matrixP /(_ ord0 ord0) :=
  block_unblock
    (fun q => InvertibleConv1x1.W shear_conv *m block 2 2 (data dot_image) q)
    (ltn0Sn 0).
rewrite [LHS]mxE /= => ->.
rewrite mxE !big_ord_recl big_ord0 !W_shear_conv !mxE /=.
by rewrite mulr0 add0r addr0 mulr1.
Qed.

(** [forward] accepts [dot_image] and [backward] returns on the result,
    but what it returns is not [dot_image]: it has solved along the last
    dimension. *)
Lemma backward_square_not_inverse :
  exists z ld',
    InvertibleConv1x1.returns fwd shear_conv = Some (z, ld')
    /\ exists x' ld'',
         [/\ InvertibleConv1x1.returns (InvertibleConv1x1.backward z ld')
               shear_conv = Some (x', ld''),
             shape x' = shape dot_image & x' <> dot_image].
Proof.
have wb := reachable_well_built shear_conv_reachable.
rewrite forward_returns /=; eexists; eexists; split; first by [].
rewrite backward_returns.
have -> : backward_accepts 2 (Tensor (shape dot_image)
                                (forward_data shear_conv dot_image)) by [].
eexists; eexists; split; [reflexivity | by [] | move=> e].
have := congr1 (fun t => block 2 1 (data t) 0) e.
rewrite [data _]/= /backward_data block_unblock // [data _]/= => e0.
have := congr1 (mulmx (InvertibleConv1x1.W shear_conv)) e0.
rewrite (mulmx_lu_solve wb) => /matrixP /(_ ord0 ord0).
rewrite [LHS]mxE -[X in nth _ _ X]/0%N forward_dot_image0.
rewrite mxE !big_ord_recl big_ord0 !mxE /=.
rewrite !mulr0 !addr0 => /eqP.
by rewrite oner_eq0.
Qed.

End ShearSolve.

(** * The properties of InvertibleConv1x1 *)

Section InvertibleConv1x1Properties.

Import Tensor.

Variable n : nat.
Implicit Type self : InvertibleConv1x1.module n.

(** C3: for every instance the program can hold, the matrix
    [W = P (L * L_mask + I) (U * U_mask + diag (sign_s * exp log_s))]
    rebuilt in [forward] has [log |det W| = sum log_s]. *)
Theorem log_abs_det_W self :
  InvertibleConv1x1.reachable self ->
  ln (Rabs (\det (InvertibleConv1x1.W self)))
  = InvertibleConv1x1.sum_log_s self.
Proof.
move=> /reachable_well_built wb.
by rewrite (Rabs_det_W wb); apply: ln_exp.
Qed.

(** C8: whatever values training gives to [L], [U] and [log_s], the
    diagonal entries [sign_s * exp log_s] are not zero and the matrix [W]
    rebuilt in [forward] is invertible. *)
Theorem W_invertible self (L' U' : 'M[R]_n) (log_s' : 'rV[R]_n) :
  InvertibleConv1x1.reachable self ->
  let self' := InvertibleConv1x1.update self L' U' log_s' in
  (forall i, InvertibleConv1x1.s_diag self' 0 i != 0)
  /\ InvertibleConv1x1.W self' \in unitmx.
Proof.
move=> /reachable_well_built wb self'.
have wb' : well_built self' by apply: well_built_frozen wb.
by split; [move=> i; apply: s_diag_neq0 | apply: W_unit].
Qed.

(** C4: unpacked with the stored pivot sequence, the matrix packed in
    [backward] gives the three factors [P], [L_eff] and [U_eff] whose
    product is the matrix [W] of [forward]; the pivoted solve against it
    undoes the product by [W]; and on every non-empty [(B, n)] batch
    [backward] returns the batch and the accumulator that [forward] was
    given. *)
Theorem backward_inverts_forward self B (x ld : tensor) :
  InvertibleConv1x1.reachable self ->
  shape x = [:: B; n] -> wf x -> (0 < B)%N -> (0 < n)%N ->
  [/\ let '(P', L', U') :=
        lu_unpack (InvertibleConv1x1.LU self) (InvertibleConv1x1.pivots self)
      in P' *m L' *m U' = InvertibleConv1x1.W self,
      forall k (v : 'M[R]_(n, k)),
        lu_solve_mx (InvertibleConv1x1.LU self) (InvertibleConv1x1.pivots self)
          (InvertibleConv1x1.W self *m v) = v &
      exists z ld',
        InvertibleConv1x1.returns (InvertibleConv1x1.forward x ld) self
        = Some (z, ld')
        /\ InvertibleConv1x1.returns (InvertibleConv1x1.backward z ld') self
           = Some (x, ld)].
Proof.
move=> /reachable_well_built wb sx wx B0 n0; split.
- by rewrite (lu_unpack_LU wb).
- by move=> k v; apply: lu_solve_mxK.
- exact: backward_forward sx wx B0 n0.
Qed.

(** C6: on every input it accepts, [forward] returns a batch of the
    shape of its input, in which each sample, read as a matrix of [n]
    rows, is the product of [W] and the same sample of the input: the
    channels are mixed and every other position is kept apart. *)
Theorem forward_keeps_shape self (z ld : tensor) :
  forward_accepts n z ->
  exists z' ld',
    [/\ InvertibleConv1x1.returns (InvertibleConv1x1.forward z ld) self
        = Some (z', ld'),
        shape z' = shape z &
        forall B C sp, shape z = B :: C :: sp ->
        forall (q : nat) (c : 'I_n) (r : nat),
          (q < B)%N -> (r < numel sp)%N ->
          nth 0 (data z') ((q * n + c) * numel sp + r)
          = \sum_(k < n) InvertibleConv1x1.W self c k
                         * nth 0 (data z) ((q * n + k) * numel sp + r)].
Proof.
move=> acc; rewrite forward_returns acc; eexists; eexists; split=> //=.
move=> B C sp sz q c r qB rsp; rewrite /forward_data sz.
have := block_unblock
  (fun q => InvertibleConv1x1.W self *m block n (numel sp) (data z) q) qB.
move/matrixP/(_ c (Ordinal rsp)); rewrite [LHS]mxE /= => ->.
by rewrite mxE; apply: eq_bigr => k _; congr (_ * _); rewrite mxE.
Qed.

(** C7: a call of [forward] that returns adds the one number
    [log_s[0] + ... + log_s[n-1]] once to every element of the
    accumulator it was given, whatever the shape of the batch and the
    number of its spatial positions; a call of [backward] subtracts the
    same number once from every element, so that it gives back the
    accumulator that [forward] was given. *)
Theorem logdet_contribution self (z y ld : tensor) :
  let s := \sum_(i < n) InvertibleConv1x1.log_s self 0 i in
  [/\ omap snd (InvertibleConv1x1.returns (InvertibleConv1x1.forward z ld) self)
      = (if forward_accepts n z
         then Some (Tensor (shape ld) [seq v + s | v <- data ld]) else None),
      omap snd (InvertibleConv1x1.returns (InvertibleConv1x1.backward y ld) self)
      = (if backward_accepts n y
         then Some (Tensor (shape ld) [seq v - s | v <- data ld]) else None) &
      forall ld1,
        omap snd (InvertibleConv1x1.returns (InvertibleConv1x1.forward z ld) self)
        = Some ld1 ->
        backward_accepts n y ->
        omap snd
          (InvertibleConv1x1.returns (InvertibleConv1x1.backward y ld1) self)
        = Some ld].
Proof.
move=> s; split.
- by rewrite forward_returns; case: (forward_accepts n z).
- by rewrite backward_returns; case: (backward_accepts n y).
move=> ld1; rewrite forward_returns backward_returns => e ->.
by case: (forward_accepts n z) e => //= -[<-]; rewrite sub_add_scalar.
Qed.


(** C10, as amended: [backward] accepts every input of shape
    [(batch_size, n)].  It appends a dimension to its input and does not
    flatten the dimensions after the channels, so on an input with such
    dimensions that [forward] accepts and whose last dimension is not
    [n], [forward] returns a batch of the same shape and [backward]
    fails on it, as on every input of that shape: the domains of the
    two methods differ. *)
Theorem backward_domain self (y ld : tensor) (B : nat) (sp : seq nat) :
  shape y = B :: n :: sp -> sp != [::] -> last n sp != n ->
  forward_accepts n y ->
  [/\ exists z ld',
        [/\ InvertibleConv1x1.returns (InvertibleConv1x1.forward y ld) self
            = Some (z, ld'),
            shape z = shape y &
            InvertibleConv1x1.returns (InvertibleConv1x1.backward z ld') self
            = None],
      forall y' ld', shape y' = shape y ->
        InvertibleConv1x1.returns (InvertibleConv1x1.backward y' ld') self
        = None &
      forall (x : tensor) (B' : nat), shape x = [:: B'; n] ->
        isSome
          (InvertibleConv1x1.returns (InvertibleConv1x1.backward x ld) self)].
Proof.
move=> sy nsp ln acc.
have fails y' ld' : shape y' = shape y ->
    InvertibleConv1x1.returns (InvertibleConv1x1.backward y' ld') self = None.
  by rewrite backward_returns /backward_accepts sy => -> /=; rewrite (negbTE ln).
split=> //.
- rewrite forward_returns acc; eexists; eexists; split; first by [].
    by [].
  exact: fails.
- by move=> x B' sx; rewrite backward_returns /backward_accepts sx /= eqxx.
Qed.

End InvertibleConv1x1Properties.

(** * The properties of Glow *)

Section GlowProperties.

Variable X : Type.
Variable V : zmodType.
Implicit Type self : Glow.module X V.

(** C1: when every sub-layer honours the contract of the interface,
    running the pipeline backward on the output of its forward pass
    returns the batch the forward pass was given. *)
Theorem glow_backward_forward self (y : X) :
  Glow.wf self -> honours_contract self ->
  (Glow.backward self (Glow.forward self y).1).1 = y.
Proof.
by move=> wfs hc; rewrite glow_roundtrip.
Qed.

(** C2: under the same contract the two accumulators, each started at
    zero, cancel: the log-determinant returned by the backward pass on
    the output of the forward pass is the opposite of the one the
    forward pass returned. *)
Theorem glow_logdet_cancel self (y : X) :
  Glow.wf self -> honours_contract self ->
  (Glow.forward self y).2 + (Glow.backward self (Glow.forward self y).1).2 = 0.
Proof.
by move=> wfs hc; rewrite glow_roundtrip //= subrr.
Qed.

(** C5: the result of the forward pass is the result of calling, for
    the stages [0 .. N-1] in this order, the normalisation, the linear
    layer and the coupling of the stage; the result of the backward pass
    is the result of calling, for the stages [N-1 .. 0] in this order,
    the inverse of the coupling, of the linear layer and of the
    normalisation of the stage.  These are the calls that the passes
    record, and those of the backward pass are the inverses of those of
    the forward pass in the reverse order. *)
Theorem glow_call_order self (y z : X) :
  let N := Glow.n_layers self in
  let fwd :=
    flatten [seq [:: (Glow.Actnorm, i, Glow.Fwd); (Glow.Linear, i, Glow.Fwd);
                     (Glow.Coupling, i, Glow.Fwd)] | i <- iota 0 N] in
  let bwd :=
    flatten [seq [:: (Glow.Coupling, i, Glow.Bwd); (Glow.Linear, i, Glow.Bwd);
                     (Glow.Actnorm, i, Glow.Bwd)] | i <- rev (iota 0 N)] in
  [/\ Glow.forward self y = foldl (perform self) (y, 0) fwd
      /\ Glow.forward_calls self y = fwd,
      Glow.backward self z = foldl (perform self) (z, 0) bwd
      /\ Glow.backward_calls self z = bwd,
      rev (iota 0 N) = [seq (N.-1 - i)%N | i <- iota 0 N] &
      bwd = [seq Glow.inverse_call c | c <- rev fwd]].
Proof.
move=> N fwd bwd.
rewrite /Glow.forward /Glow.backward /Glow.forward_calls /Glow.backward_calls.
rewrite /Glow.forward_pass /Glow.backward_pass.
rewrite forward_stages_perform backward_stages_perform.
rewrite forward_calls_stages backward_calls_stages /=.
split=> //; last by rewrite /bwd /fwd -inverse_forward_calls.
apply: (@eq_from_nth _ 0%N); first by rewrite size_rev size_map.
move=> i; rewrite size_rev size_iota => iN.
rewrite nth_rev size_iota // (nth_map 0%N) ?size_iota // !nth_iota ?add0n //.
  by move: iN; rewrite /N; case: (Glow.n_layers self) => // m _; rewrite subSS ltnS leq_subr.
by rewrite -subn1 -subnDA add1n.
Qed.

End GlowProperties.

(** * The statements at concrete inputs *)

Lemma log_abs_det_W_unit_conv :
  InvertibleConv1x1.reachable unit_conv
  /\ ln (Rabs (\det (InvertibleConv1x1.W unit_conv)))
     = InvertibleConv1x1.sum_log_s unit_conv.
Proof.
split; first exact: unit_conv_reachable.
exact: (log_abs_det_W unit_conv_reachable).
Defined.

Lemma W_invertible_unit_conv :
  InvertibleConv1x1.reachable unit_conv
  /\ let self' := InvertibleConv1x1.update unit_conv 0 0 0 in
     (forall i, InvertibleConv1x1.s_diag self' 0 i != 0)
     /\ InvertibleConv1x1.W self' \in unitmx.
Proof.
split; first exact: unit_conv_reachable.
exact: (W_invertible 0 0 0 unit_conv_reachable).
Defined.

Lemma backward_inverts_forward_unit_conv :
  exists z ld',
    InvertibleConv1x1.returns
      (InvertibleConv1x1.forward zero_batch (Tensor.zeros [:: 1%N])) unit_conv
    = Some (z, ld')
    /\ InvertibleConv1x1.returns (InvertibleConv1x1.backward z ld') unit_conv
       = Some (zero_batch, Tensor.zeros [:: 1%N]).
Proof.
have [] := @backward_inverts_forward 2 unit_conv 1 zero_batch
             (Tensor.zeros [:: 1%N]) unit_conv_reachable erefl erefl erefl erefl.
by [].
Defined.

Lemma forward_keeps_shape_unit_conv :
  exists z' ld',
    InvertibleConv1x1.returns
      (InvertibleConv1x1.forward zero_image (Tensor.zeros [:: 1%N])) unit_conv
    = Some (z', ld')
    /\ Tensor.shape z' = [:: 1%N; 2%N; 3%N].
Proof.
have [z' [ld' [e sz _]]] :=
  @forward_keeps_shape 2 unit_conv zero_image (Tensor.zeros [:: 1%N]) erefl.
by exists z', ld'.
Defined.

Lemma glow_backward_forward_flip :
  (Glow.backward flip_glow (Glow.forward flip_glow true).1).1 = true.
Proof.
exact: (glow_backward_forward true flip_glow_wf flip_glow_contract).
Defined.

Lemma glow_logdet_cancel_flip :
  (Glow.forward flip_glow true).2
  + (Glow.backward flip_glow (Glow.forward flip_glow true).1).2 = 0.
Proof.
exact: (glow_logdet_cancel true flip_glow_wf flip_glow_contract).
Defined.

(** C10 as stated fails.  The layer [unit_conv] has two channels and
    [square_image] has shape [(1, 2, 2)]: one dimension after the
    channels, of size 2.  [forward] accepts it and [backward] returns on
    it, since the last dimension is the number of channels. *)
Lemma backward_returns_on_square_image :
  ~ (forall n (self : InvertibleConv1x1.module n) B sp (y ld : Tensor.tensor),
       Tensor.shape y = B :: n :: sp -> sp != [::] -> forward_accepts n y ->
       InvertibleConv1x1.returns (InvertibleConv1x1.backward y ld) self = None).
Proof.
move=> /(_ 2 unit_conv 1%N [:: 2%N] square_image (Tensor.zeros [:: 1%N])).
by rewrite backward_returns => /(_ erefl erefl erefl).
Qed.

Lemma backward_domain_images :
  (exists z ld',
     [/\ InvertibleConv1x1.returns
           (InvertibleConv1x1.forward zero_image (Tensor.zeros [:: 1%N]))
           unit_conv = Some (z, ld'),
         Tensor.shape z = [:: 1%N; 2%N; 3%N] &
         InvertibleConv1x1.returns (InvertibleConv1x1.backward z ld') unit_conv
         = None])
  /\ InvertibleConv1x1.returns
       (InvertibleConv1x1.backward zero_image (Tensor.zeros [:: 1%N])) unit_conv
     = None.
Proof.
have [fwd fails _] :=
  @backward_domain 2 unit_conv zero_image (Tensor.zeros [:: 1%N]) 1 [:: 3%N]
    erefl erefl erefl erefl.
by split; [exact: fwd | exact: fails].
Defined.

(** * Further proofs *)

(** ** The construction of a layer *)

Section InitFacts.

Import Tensor.

Variable n : nat.

Lemma Rsign_exp_ln (x : R) : x != 0 -> Rsign x * exp (ln (Rabs x)) = x.
Proof.
move=> /eqP nz; rewrite exp_ln; first exact: (Rabs_pos_lt _ nz).
rewrite /Rsign; case: (Rlt_dec 0%coqR x) => [gt0|le0] /=.
  by rewrite mul1r; apply: Rabs_pos_eq; apply: Rlt_le.
case: (Rlt_dec x 0%coqR) => [lt0|ge0] /=.
  by rewrite (Rabs_left _ lt0) mulN1r opprK.
have x0 : x = 0 by apply: Rle_antisym; apply: Rnot_lt_le.
by case: nz.
Qed.

Variable LU0 : 'M[R]_n.
Variable piv : pivot_seq n.
Hypothesis nz : forall i, LU0 i i != 0.

Local Notation self := (InvertibleConv1x1.init LU0 piv).

Lemma init_L_eff : InvertibleConv1x1.L_eff self = unpack_L LU0.
Proof.
have wb := init_well_built piv nz.
by apply/matrixP => i j; rewrite (L_effE wb) /= !mxE; case: ltnP.
Qed.

Lemma init_U_eff : InvertibleConv1x1.U_eff self = unpack_U LU0.
Proof.
have wb := init_well_built piv nz.
apply/matrixP => i j; rewrite (U_effE wb) s_diagE /= !mxE leqnn.
case: (ltngtP i j) => ij //.
  by rewrite -(inj_eq val_inj) gtn_eqF.
by rewrite (val_inj ij) eqxx Rsign_exp_ln.
Qed.

Lemma init_LU : InvertibleConv1x1.LU self = LU0.
Proof.
have wb := init_well_built piv nz.
apply/matrixP => i j; rewrite (LUE wb) s_diagE /= !mxE leqnn.
case: (ltngtP i j) => ij //.
by rewrite Rsign_exp_ln // (val_inj ij).
Qed.

Lemma init_W :
  InvertibleConv1x1.W self = unpack_P piv *m unpack_L LU0 *m unpack_U LU0.
Proof. by rewrite /InvertibleConv1x1.W init_L_eff init_U_eff. Qed.

End InitFacts.

(** ** The orientation of the matrix *)

Section Orientation.

Variable n : nat.
Implicit Type self : InvertibleConv1x1.module n.

Lemma Rabs1_cases (x : R) : Rabs x = 1 -> x = 1 \/ x = -1.
Proof.
rewrite /Rabs; case: (Rcase_abs x) => _ e; [right | by left].
by rewrite -e; symmetry; apply: Ropp_involutive.
Qed.

Lemma unit_square (x : R) : x * x = 1 -> Rabs x = 1.
Proof.
move=> xx; have := congr1 Rabs xx; rewrite RabsM Rabs1.
have := Rabs_pos x; move: (Rabs x) => a a0 aa.
have /eqP : a ^+ 2 = 1 by rewrite expr2.
rewrite sqrf_eq1 => /orP [/eqP //|/eqP aN1].
by move: a0; rewrite aN1 => /Rle_not_lt []; apply: Ropp_lt_gt_0_contravar; exact: Rlt_0_1.
Qed.

Lemma det_unpack_U (LU0 : 'M[R]_n) : \det (unpack_U LU0) = \prod_(i < n) LU0 i i.
Proof.
have tr : is_trig_mx (unpack_U LU0)^T.
  by apply/is_trig_mxP => i j ij; rewrite !mxE leqNgt ij.
by rewrite -det_tr (det_trig tr); apply: eq_bigr => i _; rewrite !mxE leqnn.
Qed.

Lemma det_W_orientation self :
  well_built self ->
  \det (InvertibleConv1x1.W self)
  = orientation self * exp (InvertibleConv1x1.sum_log_s self).
Proof.
move=> wb; rewrite (det_W wb) /orientation -mulrA; congr (_ * _).
rewrite /InvertibleConv1x1.sum_log_s exp_sum -big_split /=.
by apply: eq_bigr => i _; rewrite s_diagE.
Qed.

Lemma orientation_frozen self self' :
  frozen self' = frozen self -> orientation self' = orientation self.
Proof. by rewrite /frozen /orientation => -[_ _ -> _ _ ->]. Qed.

Lemma Rabs_orientation self : well_built self -> Rabs (orientation self) = 1.
Proof.
case=> _ _ _ _ hs; rewrite /orientation RabsM Rabs_prod.
have -> : \prod_(i < n) Rabs (InvertibleConv1x1.sign_s self 0 i) = 1.
  by rewrite big1 // => i _; rewrite hs.
by rewrite mulr1; case: (odd_perm _); rewrite ?expr1 ?expr0 ?RabsN1 ?Rabs1.
Qed.

End Orientation.

(** ** The passes of Glow, continued *)

Section GlowMore.

Import Glow.

Variable X : Type.
Variable V : zmodType.
Variable self : Glow.module X V.

Local Notation act i := (nth (idle X V) (actnorms self) i).
Local Notation lin i := (nth (idle X V) (linears self) i).
Local Notation cpl i := (nth (idle X V) (couplings self) i).


Lemma inverse_contract_state (l : BijectiveLayer X V) y :
  inverse_contract l -> forward_state l (backward_state l y) = y.
Proof. by move=> /(_ y) []. Qed.

Lemma inverse_contract_logdet (l : BijectiveLayer X V) y :
  inverse_contract l ->
  forward_logdet l (backward_state l y) = backward_logdet l y.
Proof.
move=> /(_ y) [] _ /eqP; rewrite sub0r addrC subr_eq0 => /eqP e.
by rewrite e.
Qed.

Lemma stage_stateVK i y :
  stage_inverse_ok self i ->
  stage_forward_state self i (stage_backward_state self i y) = y.
Proof.
case=> ha hl hc; rewrite /stage_backward_state /stage_forward_state.
by rewrite !inverse_contract_state.
Qed.

Lemma stage_logdetVK i y :
  stage_inverse_ok self i ->
  stage_forward_logdet self i (stage_backward_state self i y)
  = stage_backward_logdet self i y.
Proof.
case=> ha hl hc; rewrite /stage_backward_logdet /stage_backward_state.
rewrite /stage_forward_logdet !inverse_contract_state //.
rewrite !inverse_contract_logdet //.
by rewrite addrC [X in _ + X = _]addrC addrA.
Qed.

Lemma stages_roundtrip_rev (s : seq nat) :
  (forall i, i \in s -> stage_inverse_ok self i) ->
  forall (z : X) (b : V) (u : seq call),
  let st := foldl (backward_stage self) (z, b, u) s in
  forall (a : V) (t : seq call),
    (foldl (forward_stage self) (st.1.1, a, t) (rev s)).1
    = (z, a + (b - st.1.2)).
Proof.
elim: s => [|i s IH] ok z b u /=; first by move=> a t; rewrite subrr addr0.
move=> a t; rewrite rev_cons -cats1 foldl_cat /= forward_stageE /=.
have oks j : j \in s -> stage_inverse_ok self j by move=> js; apply: ok; rewrite inE js orbT.
have oki : stage_inverse_ok self i by apply: ok; rewrite inE eqxx.
rewrite backward_stageE /= (IH oks) /= stage_stateVK // stage_logdetVK //.
congr (_, _); rewrite -addrA; congr (_ + _).
by rewrite addrAC subrK.
Qed.

End GlowMore.

(** ** Decimal formatting and paths *)

Section OutputFiles.

Import Main.

Lemma digits_fuel_lt10 fuel n : all (fun d => d < 10)%N (digits_fuel fuel n).
Proof.
elim: fuel n => [|f IH] n //=; case: ltnP => [n10|_] /=; first by rewrite n10.
by rewrite all_rcons IH ltn_pmod.
Qed.

Lemma digits_fuel_nonempty fuel n : (0 < size (digits_fuel fuel.+1 n))%N.
Proof. by rewrite [digits_fuel _ _]/=; case: ifP => // _; rewrite size_rcons. Qed.

Lemma value_rcons ds d : value (rcons ds d) = (value ds * 10 + d)%N.
Proof. by rewrite /value -cats1 foldl_cat. Qed.

Lemma value_digits_fuel fuel n : (n < fuel)%N -> value (digits_fuel fuel n) = n.
Proof.
elim: fuel n => [|f IH] n //= nf; case: ltnP => [//|n10].
have lt : (n %/ 10 < n)%N by apply: ltn_Pdiv => //; apply: leq_trans n10.
by rewrite value_rcons IH -?divn_eq //; apply: leq_trans lt _; rewrite -ltnS.
Qed.

Lemma value_zeros k ds : value (nseq k 0%N ++ ds) = value ds.
Proof. by rewrite /value foldl_cat; elim: k => [|k IH]. Qed.

Lemma digit_charK d : (d < 10)%N -> (nat_of_ascii (digit_char d) - 48)%N = d.
Proof.
move=> d10; rewrite /digit_char nat_ascii_embedding ?addKn //.
by apply/ltP; apply: leq_trans (_ : 48 + 10 <= 256)%N; rewrite ?ltn_add2l.
Qed.

(** Reading back the formatted number gives the number. *)
Lemma parse_format_06d n : parse (format_06d n) = n.
Proof.
rewrite /parse /format_06d map_cat map_nseq digit_charK // -map_comp.
have -> : [seq ((fun c => nat_of_ascii c - 48)%N \o digit_char) d
             | d <- digits n] = digits n.
  rewrite -[RHS]map_id; apply/eq_in_map => d.
  by move/allP: (digits_fuel_lt10 n.+1 n) => h /h; exact: digit_charK.
by rewrite value_zeros value_digits_fuel.
Qed.

Lemma format_06d_inj : injective format_06d.
Proof. exact: can_inj parse_format_06d. Qed.

Lemma format_06d_head n :
  exists d s, (d < 10)%N /\ format_06d n = digit_char d :: s.
Proof.
rewrite /format_06d; case: (6 - _)%N => [|k] /=; last by exists 0%N; eexists.
have := digits_fuel_lt10 n.+1 n; have := digits_fuel_nonempty n n.
rewrite /digits; case: (digits_fuel _ _) => //= d ds _ /andP [d10 _].
by exists d; eexists.
Qed.

Lemma join_relative (a b b' : str) c c' :
  c != "/"%char -> c' != "/"%char ->
  join a (c :: b) = join a (c' :: b') -> c :: b = c' :: b'.
Proof.
rewrite /join => /negPf -> /negPf ->.
case: a => [|x a] //=; case: ifP => _ [] /eqP.
  by rewrite eqseq_cat // eqxx /= => /eqP.
rewrite -cat_rcons -[a ++ _ :: c' :: _]cat_rcons.
by rewrite eqseq_cat // eqxx /= => /eqP.
Qed.

End OutputFiles.

(** * Further properties of InvertibleConv1x1 *)

Section MoreConvProperties.

Import Tensor.

Variable n : nat.
Implicit Type self : InvertibleConv1x1.module n.

(** X1: a freshly built layer is the matrix that was factorised: the [W]
    that [forward] rebuilds from the parameters stored by [__init__] is
    the product of the three factors returned by [lu_unpack], and the
    matrix that [backward] packs is the packed factor returned by
    [torch.lu]. *)
Theorem init_reproduces_factorisation (LU0 : 'M[R]_n) (piv : pivot_seq n) :
  (forall i, LU0 i i != 0) ->
  let self := InvertibleConv1x1.init LU0 piv in
  let '(P0, L0, U0) := lu_unpack LU0 piv in
  InvertibleConv1x1.W self = P0 *m L0 *m U0
  /\ InvertibleConv1x1.LU self = LU0.
Proof. by move=> nz; split; [apply: init_W | apply: init_LU]. Qed.

(** X2: when the factorised matrix is orthogonal, as the one drawn by
    [nn.init.orthogonal_] is, the layer is one the program can hold and
    its initial contribution [sum log_s] to the log-determinant is 0. *)
Theorem init_preserves_volume (LU0 : 'M[R]_n) (piv : pivot_seq n) :
  let W0 := unpack_P piv *m unpack_L LU0 *m unpack_U LU0 in
  W0^T *m W0 = 1%:M ->
  InvertibleConv1x1.reachable (InvertibleConv1x1.init LU0 piv)
  /\ InvertibleConv1x1.sum_log_s (InvertibleConv1x1.init LU0 piv) = 0.
Proof.
move=> W0 orth.
have dd : \det W0 * \det W0 = 1.
  by rewrite -{1}(det_tr W0) -det_mulmx orth det1.
have dnz : \det W0 != 0.
  by apply/eqP => d0; move: dd; rewrite d0 mul0r => /esym /eqP; rewrite oner_eq0.
have pnz : \prod_(i < n) LU0 i i != 0.
  rewrite -det_unpack_U.
  by apply: contra dnz => /eqP dU; rewrite /W0 det_mulmx dU mulr0.
have nz i : LU0 i i != 0 by move/prodf_neq0: pnz => /(_ i isT).
have wb := init_well_built piv nz.
split; first by exists LU0, piv; split=> //; exists [::].
have := Rabs_det_W wb; rewrite init_W // -/W0 (unit_square dd) => e.
by rewrite -[LHS]ln_exp -e; exact: ln_1.
Qed.

(** X3: training cannot change the sign of the determinant.  Through any
    sequence of calls and training steps, [det W] is the number
    [orientation self], which is 1 or -1 and is fixed by the frozen
    parameters, times [exp (sum log_s)]. *)
Theorem determinant_orientation self (es : seq (InvertibleConv1x1.event n)) :
  InvertibleConv1x1.reachable self ->
  let self' := InvertibleConv1x1.run self es in
  \det (InvertibleConv1x1.W self')
  = orientation self * exp (InvertibleConv1x1.sum_log_s self')
  /\ (orientation self = 1 \/ orientation self = -1).
Proof.
move=> /reachable_well_built wb self'.
have fr : frozen self' = frozen self by apply: run_frozen.
split; last exact: Rabs1_cases (Rabs_orientation wb).
by rewrite (det_W_orientation (well_built_frozen fr wb)) (orientation_frozen fr).
Qed.

(** X4: the masks hide the rest of the trainable tensors.  Two values of
    [L] that agree strictly below the diagonal and two values of [U]
    that agree strictly above it give the same matrix [W] in [forward]
    and the same packed matrix in [backward]. *)
Theorem masked_entries_ignored self (L1 L2 U1 U2 : 'M[R]_n) (ls : 'rV[R]_n) :
  InvertibleConv1x1.reachable self ->
  (forall i j : 'I_n, (j < i)%N -> L1 i j = L2 i j) ->
  (forall i j : 'I_n, (i < j)%N -> U1 i j = U2 i j) ->
  let self1 := InvertibleConv1x1.update self L1 U1 ls in
  let self2 := InvertibleConv1x1.update self L2 U2 ls in
  InvertibleConv1x1.W self1 = InvertibleConv1x1.W self2
  /\ InvertibleConv1x1.LU self1 = InvertibleConv1x1.LU self2.
Proof.
move=> /reachable_well_built wb hL hU self1 self2.
have wb1 : well_built self1 by apply: well_built_frozen wb.
have wb2 : well_built self2 by apply: well_built_frozen wb.
have eL : InvertibleConv1x1.L_eff self1 = InvertibleConv1x1.L_eff self2.
  by apply/matrixP => i j; rewrite !L_effE //=; case: ltnP => // /hL.
have eU : InvertibleConv1x1.U_eff self1 = InvertibleConv1x1.U_eff self2.
  by apply/matrixP => i j; rewrite !U_effE // !s_diagE /=; case: ltnP => // /hU.
split; first by rewrite /InvertibleConv1x1.W eL eU.
apply/matrixP => i j; rewrite !LUE // !s_diagE /=.
by case: ltnP => [/hL //|_]; case: ltnP => // /hU.
Qed.

(** X5: [forward] raises on an input of fewer than two dimensions, on an
    empty batch, on an input without channels and on a number of
    channels other than [n]; on every other input it returns, whatever
    the accumulator it is given. *)
Theorem forward_domain self (z ld : tensor) :
  isSome (InvertibleConv1x1.returns (InvertibleConv1x1.forward z ld) self)
  = (if shape z is B :: C :: _ then [&& (0 < B)%N, (0 < C)%N & C == n]
     else false).
Proof.
rewrite forward_returns /forward_accepts.
by case: (shape z) => [|B [|C sp]] //; rewrite muln_gt0 -andbA; case: (_ && _).
Qed.

(** X6: on a single sample given without a batch dimension, of shape
    [(n,)], [forward] raises, while [backward] returns: its result has
    the shape [(1, n)], not [(n,)], and is the solution of
    [W v = ] the sample. *)
Theorem backward_unbatched self (y ld : tensor) :
  InvertibleConv1x1.reachable self -> shape y = [:: n] ->
  InvertibleConv1x1.returns (InvertibleConv1x1.forward y ld) self = None
  /\ exists y' ld',
       [/\ InvertibleConv1x1.returns (InvertibleConv1x1.backward y ld) self
           = Some (y', ld'),
           shape y' = [:: 1%N; n] &
           InvertibleConv1x1.W self *m block n 1 (data y') 0
           = block n 1 (data y) 0].
Proof.
move=> /reachable_well_built wb sy; split.
  by rewrite forward_returns /forward_accepts sy.
rewrite backward_returns /backward_accepts /backward_data /solve_batch sy /= eqxx.
eexists; eexists; split=> //=.
by rewrite block_unblock // mulmx_lu_solve.
Qed.

(** X7: [forward] undoes [backward] as well.  On every non-empty
    [(B, n)] batch [backward] returns, and [forward] on its result
    returns the batch and the accumulator that [backward] was given. *)
Theorem forward_inverts_backward self B (y ld : tensor) :
  InvertibleConv1x1.reachable self ->
  shape y = [:: B; n] -> wf y -> (0 < B)%N -> (0 < n)%N ->
  exists x ld',
    InvertibleConv1x1.returns (InvertibleConv1x1.backward y ld) self
    = Some (x, ld')
    /\ InvertibleConv1x1.returns (InvertibleConv1x1.forward x ld') self
       = Some (y, ld).
Proof.
move=> /reachable_well_built wb; case: y => sh d /= -> /=.
rewrite /wf /= muln1 => sz B0 n0.
rewrite backward_returns /backward_accepts /backward_data /solve_batch /= eqxx.
eexists; eexists; split; first by [].
rewrite forward_returns /forward_accepts /forward_data /= muln_gt0 B0 n0 eqxx /=.
rewrite add_sub_scalar muln1; congr (Some (Tensor _ _, _)).
rewrite (@unblock_ext _ _ _ _ (block n 1 d)) ?unblock_block ?muln1 //.
by move=> q qB; rewrite block_unblock // mulmx_lu_solve.
Qed.

(** X8: two layers in sequence act as one.  On an input that [forward]
    accepts, the [forward] of a second layer accepts the result of the
    first, and the final batch is the input with each sample multiplied
    by the product [W2 W1], the accumulator having received the sum of
    the two contributions. *)
Theorem forward_composes self1 self2 (z ld : tensor) :
  forward_accepts n z ->
  exists z1 ld1 z2 ld2,
    [/\ InvertibleConv1x1.returns (InvertibleConv1x1.forward z ld) self1
        = Some (z1, ld1),
        InvertibleConv1x1.returns (InvertibleConv1x1.forward z1 ld1) self2
        = Some (z2, ld2),
        shape z2 = shape z,
        ld2 = add_scalar ld (InvertibleConv1x1.sum_log_s self1
                             + InvertibleConv1x1.sum_log_s self2) &
        forall B C sp, shape z = B :: C :: sp ->
        forall (q : nat) (c : 'I_n) (r : nat),
          (q < B)%N -> (r < numel sp)%N ->
          nth 0 (data z2) ((q * n + c) * numel sp + r)
          = \sum_(k < n)
              (InvertibleConv1x1.W self2 *m InvertibleConv1x1.W self1) c k
              * nth 0 (data z) ((q * n + k) * numel sp + r)].
Proof.
move=> acc; rewrite forward_returns acc.
eexists; eexists; eexists; eexists; split; first by [].
- by rewrite forward_returns /forward_accepts /= -/(forward_accepts n z) acc.
- by [].
- case: ld => sh d; rewrite /add_scalar /=; congr Tensor.
  by rewrite -map_comp; apply: eq_map => v /=; rewrite addrA.
move=> B C sp sz q c r qB rsp; rewrite /forward_data /= sz.
have := block_unblock
  (fun q => InvertibleConv1x1.W self2 *m
      block n (numel sp)
        (unblock B (fun q => InvertibleConv1x1.W self1 *m
                      block n (numel sp) (data z) q)) q) qB.
move/matrixP/(_ c (Ordinal rsp)); rewrite [LHS]mxE /= => ->.
rewrite block_unblock // mulmxA mxE.
by apply: eq_bigr => k _; congr (_ * _); rewrite mxE.
Qed.

End MoreConvProperties.

Section RefineLayer.

Import Tensor.

Variables n B : nat.

(** X9: on a batch of [B] samples of [n] channels held in a tensor of
    shape [(B, n)], [forward] returns the tensor that holds [W x] and
    [backward] the tensor that holds [W^-1 x], with the accumulator of
    [B] numbers increased, respectively decreased, by [sum log_s] in
    every position. *)
Theorem conv_methods_refine_layer (self : InvertibleConv1x1.module n)
    (x : 'M[R]_(n, B)) (a : 'rV[R]_B) :
  InvertibleConv1x1.reachable self -> (0 < B)%N -> (0 < n)%N ->
  InvertibleConv1x1.returns
    (InvertibleConv1x1.forward (batch_tensor x) (logdet_tensor a)) self
  = Some (batch_tensor (InvertibleConv1x1.W self *m x),
          logdet_tensor
            (a + const_mx (InvertibleConv1x1.sum_log_s self) : 'rV[R]_B))
  /\ InvertibleConv1x1.returns
       (InvertibleConv1x1.backward (batch_tensor x) (logdet_tensor a)) self
     = Some (batch_tensor (invmx (InvertibleConv1x1.W self) *m x),
             logdet_tensor
               (a - const_mx (InvertibleConv1x1.sum_log_s self) : 'rV[R]_B)).
Proof.
move=> /reachable_well_built wb B0 n0; split.
  by rewrite forward_conv_layer.
by rewrite backward_conv_layer //= lu_solve_mxE.
Qed.

End RefineLayer.

(** * Further properties of Glow *)

Section GlowMoreProperties.

Variable X : Type.
Variable V : zmodType.
Implicit Type self : Glow.module X V.


(** X11: the round trip in the other direction.  When the forward map
    of every sub-layer undoes its backward map, the forward pass on the
    output of the backward pass returns the batch the backward pass was
    given, with the opposite log-determinant. *)
Theorem glow_forward_backward self (z : X) :
  Glow.wf self -> honours_inverse_contract self ->
  Glow.forward self (Glow.backward self z).1
  = (z, - (Glow.backward self z).2).
Proof.
move=> [sa sl sc] [ha hl hc].
rewrite /Glow.forward /Glow.backward /Glow.forward_pass /Glow.backward_pass.
have ok i : i \in rev (iota 0 (Glow.n_layers self)) -> stage_inverse_ok self i.
  rewrite mem_rev mem_iota add0n /= => iN.
  by split; [apply: ha; rewrite sa | apply: hl; rewrite sl | apply: hc; rewrite sc].
have := stages_roundtrip_rev ok z 0 [::] 0 [::].
by rewrite revK /= add0r sub0r.
Qed.

End GlowMoreProperties.

Section GlowOverConvProperties.

Variables n B : nat.

(** X12: a Glow whose linear layers are the [InvertibleConv1x1] of this
    file is inverted by its backward pass on non-empty batches.  For
    [0 < B] samples of [0 < n] channels, when every linear layer is a
    layer the program can hold and the normalisations and couplings that
    [__init__] builds honour the contract: the linear sub-layer of every
    stage is what the methods [forward] and [backward] of the instance of
    that stage return on the tensors that hold the batch and the
    accumulator, and the backward pass on the output of the forward pass
    returns the input batch and the opposite log-determinant. *)
Theorem glow_with_conv_roundtrip (B_pos : (0 < B)%N) (n_pos : (0 < n)%N)
    (dims0 : seq nat) (N : nat)
    (new_Actnorm : nat -> seq nat -> Glow.BijectiveLayer 'M[R]_(n, B) 'rV[R]_B)
    (convs : nat -> InvertibleConv1x1.module n)
    (new_AffineCoupling :
       nat -> seq nat -> bool -> Glow.BijectiveLayer 'M[R]_(n, B) 'rV[R]_B)
    (y : 'M[R]_(n, B)) :
  (forall i, InvertibleConv1x1.reachable (convs i)) ->
  (forall i, Glow.contract (new_Actnorm i dims0)) ->
  (forall i odd, Glow.contract (new_AffineCoupling i dims0 odd)) ->
  let glow :=
    glow_over_conv B_pos n_pos dims0 N new_Actnorm convs new_AffineCoupling in
  (forall i (x : 'M[R]_(n, B)) (a : 'rV[R]_B), (i < N)%N ->
     let l := nth (Glow.idle 'M[R]_(n, B) 'rV[R]_B) (Glow.linears glow) i in
     InvertibleConv1x1.returns
       (InvertibleConv1x1.forward (batch_tensor x) (logdet_tensor a)) (convs i)
     = Some (batch_tensor (Glow.forward_state l x),
             logdet_tensor (a + Glow.forward_logdet l x : 'rV[R]_B))
     /\ InvertibleConv1x1.returns
          (InvertibleConv1x1.backward (batch_tensor x) (logdet_tensor a))
          (convs i)
        = Some (batch_tensor (Glow.backward_state l x),
                logdet_tensor (a - Glow.backward_logdet l x : 'rV[R]_B)))
  /\ Glow.backward glow (Glow.forward glow y).1
     = (y, - (Glow.forward glow y).2).
Proof.
move=> hc ha hf glow; split; last exact: glow_over_conv_roundtrip.
move=> i x a iN l.
have -> : l = conv_layer B_pos n_pos (convs i).
  by rewrite /l /= (nth_map 0%N) ?size_iota // nth_iota.
split; first by rewrite (forward_conv_layer _ B_pos n_pos).
by rewrite (backward_conv_layer B_pos n_pos (reachable_well_built (hc i))).
Qed.

End GlowOverConvProperties.

(** * The names of the output files *)

Section OutputFileProperties.

Import Main.

Lemma out_fileE out_dir e :
  out_file out_dir e
  = join out_dir ("y"%char :: lit "_sample_" ++ format_06d (e + 1) ++ lit ".jpg").
Proof. by []. Qed.

Lemma latest_fileE out_dir e :
  latest_file out_dir e = join out_dir ("y"%char :: lit "_sample_latest.jpg").
Proof. by []. Qed.

Lemma cat_cancel_r (T : eqType) (t s1 s2 : seq T) :
  s1 ++ t = s2 ++ t -> s1 = s2.
Proof.
move=> /(congr1 rev); rewrite !rev_cat => /eqP.
by rewrite eqseq_cat // eqxx /= => /eqP h; apply: (can_inj revK).
Qed.

(** X13: in one output directory the plots of different epochs go to
    different files, none of which is the file of the latest plot, and
    the file of the latest plot is the same at every epoch: no epoch
    overwrites the plot of another, and the copy to the latest file is
    never a copy of a file onto itself. *)
Theorem output_files_distinct (out_dir : str) :
  [/\ forall e1 e2, out_file out_dir e1 = out_file out_dir e2 -> e1 = e2,
      forall e e', out_file out_dir e <> latest_file out_dir e' &
      forall e e', latest_file out_dir e = latest_file out_dir e'].
Proof.
split=> [e1 e2|e e'|e e']; rewrite ?out_fileE ?latest_fileE //.
- by move/join_relative => /(_ isT isT) [] /cat_cancel_r /format_06d_inj /addIn.
- move/join_relative => /(_ isT isT) [].
  have [d [s [d10 ->]]] := format_06d_head (e + 1).
  rewrite cat_cons => -[dl _].
  have := congr1 (fun c => nat_of_ascii c - 48)%N dl.
  by rewrite digit_charK // => d60; move: d10; rewrite d60.
Qed.

End OutputFileProperties.

(** * The further statements at concrete inputs *)

Lemma idle_contract (X : Type) (V : zmodType) : Glow.contract (Glow.idle X V).
Proof.
by move=> x; rewrite /Glow.layer_backward /Glow.layer_forward /= addr0 subr0.
Qed.

Lemma flip_layer_inverse_contract : inverse_contract flip_layer.
Proof. by case. Qed.

Lemma flip_glow_inverse_contract : honours_inverse_contract flip_glow.
Proof.
by split=> -[|[|i]] //= _; apply: flip_layer_inverse_contract.
Qed.

Lemma unit_diagonal (i : 'I_2) : (1%:M : 'M[R]_2) i i != 0.
Proof. by rewrite mxE eqxx oner_neq0. Qed.

Lemma unpack_L1 n : unpack_L (1%:M : 'M[R]_n) = 1%:M.
Proof.
by apply/matrixP => i j; rewrite !mxE; case: ltnP.
Qed.

Lemma unpack_U1 n : unpack_U (1%:M : 'M[R]_n) = 1%:M.
Proof.
apply/matrixP => i j; rewrite !mxE; case: leqP => // ji.
by rewrite -(inj_eq val_inj) gtn_eqF.
Qed.

Lemma init_reproduces_factorisation_unit :
  InvertibleConv1x1.W unit_conv
  = unpack_P [ffun i => i] *m unpack_L 1%:M *m unpack_U 1%:M
  /\ InvertibleConv1x1.LU unit_conv = 1%:M.
Proof.
exact: (@init_reproduces_factorisation 2 1%:M [ffun i => i] unit_diagonal).
Defined.

Lemma init_preserves_volume_unit :
  InvertibleConv1x1.reachable unit_conv
  /\ InvertibleConv1x1.sum_log_s unit_conv = 0.
Proof.
apply: (@init_preserves_volume 2 1%:M [ffun i => i]).
by rewrite unpack_P_id unpack_L1 unpack_U1 !mulmx1 trmx1.
Defined.

Lemma determinant_orientation_shear :
  \det (InvertibleConv1x1.W shear_conv)
  = orientation unit_conv * exp (InvertibleConv1x1.sum_log_s shear_conv)
  /\ (orientation unit_conv = 1 \/ orientation unit_conv = -1).
Proof.
exact: (@determinant_orientation 2 unit_conv
          [:: InvertibleConv1x1.Train 0 (const_mx 1) 0] unit_conv_reachable).
Defined.

Lemma masked_entries_ignored_unit :
  InvertibleConv1x1.W (InvertibleConv1x1.update unit_conv 0 0 0)
  = InvertibleConv1x1.W (InvertibleConv1x1.update unit_conv 1%:M 1%:M 0)
  /\ InvertibleConv1x1.LU (InvertibleConv1x1.update unit_conv 0 0 0)
     = InvertibleConv1x1.LU (InvertibleConv1x1.update unit_conv 1%:M 1%:M 0).
Proof.
apply: (@masked_entries_ignored 2 unit_conv 0 1%:M 0 1%:M 0 unit_conv_reachable).
- by move=> i j ji; rewrite !mxE -(inj_eq val_inj) gtn_eqF.
- by move=> i j ij; rewrite !mxE -(inj_eq val_inj) ltn_eqF.
Defined.

Lemma backward_unbatched_unit :
  InvertibleConv1x1.returns
    (InvertibleConv1x1.forward zero_sample (Tensor.zeros [:: 1%N])) unit_conv
  = None
  /\ exists y' ld',
       InvertibleConv1x1.returns
         (InvertibleConv1x1.backward zero_sample (Tensor.zeros [:: 1%N]))
         unit_conv
       = Some (y', ld')
       /\ Tensor.shape y' = [:: 1%N; 2%N].
Proof.
have [fwd [y' [ld' [e sy _]]]] :=
  @backward_unbatched 2 unit_conv zero_sample (Tensor.zeros [:: 1%N])
    unit_conv_reachable erefl.
by split=> //; exists y', ld'.
Defined.

Lemma forward_inverts_backward_unit :
  exists x ld',
    InvertibleConv1x1.returns
      (InvertibleConv1x1.backward zero_batch (Tensor.zeros [:: 1%N])) unit_conv
    = Some (x, ld')
    /\ InvertibleConv1x1.returns (InvertibleConv1x1.forward x ld') unit_conv
       = Some (zero_batch, Tensor.zeros [:: 1%N]).
Proof.
exact: (@forward_inverts_backward 2 unit_conv 1 zero_batch
          (Tensor.zeros [:: 1%N]) unit_conv_reachable erefl erefl erefl erefl).
Defined.

Lemma forward_composes_shear :
  exists z1 ld1 z2 ld2,
    [/\ InvertibleConv1x1.returns
          (InvertibleConv1x1.forward zero_image (Tensor.zeros [:: 1%N]))
          unit_conv = Some (z1, ld1),
        InvertibleConv1x1.returns (InvertibleConv1x1.forward z1 ld1) shear_conv
        = Some (z2, ld2) &
        Tensor.shape z2 = [:: 1%N; 2%N; 3%N]].
Proof.
have [z1 [ld1 [z2 [ld2 [e1 e2 sz _ _]]]]] :=
  @forward_composes 2 unit_conv shear_conv zero_image (Tensor.zeros [:: 1%N])
    erefl.
by exists z1, ld1, z2, ld2.
Defined.

Lemma conv_methods_refine_layer_unit :
  InvertibleConv1x1.returns
    (InvertibleConv1x1.forward (batch_tensor (1%:M : 'M[R]_2))
       (logdet_tensor (0 : 'rV[R]_2))) unit_conv
  = Some (batch_tensor (InvertibleConv1x1.W unit_conv *m 1%:M),
          logdet_tensor
            (0 + const_mx (InvertibleConv1x1.sum_log_s unit_conv) : 'rV[R]_2)).
Proof.
by have [] := @conv_methods_refine_layer 2 2 unit_conv 1%:M 0
                unit_conv_reachable erefl erefl.
Defined.

Lemma glow_forward_backward_flip :
  Glow.forward flip_glow (Glow.backward flip_glow true).1
  = (true, - (Glow.backward flip_glow true).2).
Proof.
exact: (glow_forward_backward true flip_glow_wf flip_glow_inverse_contract).
Defined.

Lemma glow_with_conv_roundtrip_shear :
  let glow :=
    glow_over_conv (B := 1) (n := 2) isT isT [:: 2%N] 2
      (fun _ _ => Glow.idle 'M[R]_(2, 1) 'rV[R]_1)
      (fun _ => shear_conv) (fun _ _ _ => Glow.idle 'M[R]_(2, 1) 'rV[R]_1) in
  Glow.backward glow (Glow.forward glow (const_mx 1)).1
  = (const_mx 1, - (Glow.forward glow (const_mx 1)).2).
Proof.
have [_ rt] :=
  @glow_with_conv_roundtrip 2 1 isT isT [:: 2%N] 2
    (fun _ _ => Glow.idle 'M[R]_(2, 1) 'rV[R]_1) (fun _ => shear_conv)
    (fun _ _ _ => Glow.idle 'M[R]_(2, 1) 'rV[R]_1) (const_mx 1)
    (fun _ => shear_conv_reachable) (fun _ => @idle_contract _ _)
    (fun _ _ => @idle_contract _ _).
exact: rt.
Defined.

Lemma output_files_distinct_outputs :
  Main.out_file (Main.lit "outputs/glow") 0
  <> Main.latest_file (Main.lit "outputs/glow") 0
  /\ (Main.out_file (Main.lit "outputs/glow") 3
      = Main.out_file (Main.lit "outputs/glow") 3 -> 3%N = 3%N).
Proof.
have [inj h _] := output_files_distinct (Main.lit "outputs/glow").
by split; [apply: h | apply: inj].
Defined.
